(** * obographs.assocmodel: the association engine

    A shallow embedding of [src/obographs/assocmodel.py] (class
    [AssociationSet]) and the properties its specification states about
    closure indexing, boolean queries, pairwise intersections, term
    enrichment and Jaccard similarity.

    Conventions of the embedding:
    - term and subject identifiers are [string]s; Python's [<] on [str]
      is the lexicographic order on code points, [String.ltb] here;
    - a Python [set] of identifiers is a [gset string]; where the source
      iterates over a set, the (unspecified) iteration order is the one of
      [elements];
    - [association_map] is a [dict] read in insertion order: an association
      list, whose keys are pairwise distinct for a well-formed dict;
    - [subject_to_inferred_map] and the counting dicts are only read by key:
      [gmap]s;
    - Python [int]s are [Z]; p-values and the Jaccard index are exact
      rationals [Q] (the values the floating-point results approximate),
      [/] being Python 3's true division;
    - a call that can raise returns [result A = exn + A]; [raise C(args)]
      follows the class statement of [C];
    - logging is left out. *)

From Stdlib Require Import ZArith QArith Qminmax Sorted Lia.
From stdpp Require Import base list gmap sets strings.

#[local] Set Warnings "-clear-no-such-hyp".
#[local] Open Scope Z_scope.

(** ** Exceptions and the error monad *)

Inductive exn : Type :=
| TypeError
| AttributeError
| KeyError (key : string)
| Raised (cls : string) (args : list string).

Definition result (A : Type) : Type := (exn + A)%type.

#[global] Instance result_ret : MRet result := λ A x, inr x.
#[global] Instance result_bind : MBind result := λ A B f m,
  match m with
  | inl e => inl e
  | inr x => f x
  end.

(** [for x in xs: body], threading the loop state and stopping at the first
    exception. *)
Fixpoint for_each {A S : Type} (xs : list A) (body : S → A → result S) (s : S)
  : result S :=
  match xs with
  | [] => mret s
  | x :: xs' => s' ← body s x; for_each xs' body s'
  end.

(** What a [class] statement fixes about raising an instance: the number of
    constructor arguments it accepts and whether it derives from
    [BaseException]. *)
Record class_stmt : Type := {
  class_name : string;
  class_bases : list string;
  class_init_params : nat
}.

Definition is_exception_class (c : class_stmt) : bool :=
  bool_decide ("BaseException" ∈ class_bases c)
  || bool_decide ("Exception" ∈ class_bases c).

(** [raise c(args)]: the instance is built first (a [TypeError] when the
    argument count is wrong), and only instances of exception classes can be
    raised (a [TypeError] otherwise). *)
Definition raise {A : Type} (c : class_stmt) (args : list string) : result A :=
  if bool_decide (length args = class_init_params c) then
    if is_exception_class c then inl (Raised (class_name c) args)
    else inl TypeError
  else inl TypeError.

(** [class UnknownSubjectException(): pass] *)
Definition UnknownSubjectException : class_stmt :=
  {| class_name := "UnknownSubjectException";
     class_bases := [];
     class_init_params := 0 |}.

(** [len(s)] of a set *)
Definition len (X : gset string) : Z := Z.of_nat (size X).

(** ** The ontology (external collaborator) *)

Record Ontology : Type := {
  ancestors : string → gset string;
  label : string → option string
}.

(** ** AssociationSet *)

Record AssociationSet : Type := {
  ontology : option Ontology;
  association_map : list (string * list string);
  subject_to_inferred_map : gmap string (gset string);
  subjects : list string;
  strict : bool
}.

Definition set_subjects (l : list string) (self : AssociationSet) :=
  {| ontology := ontology self;
     association_map := association_map self;
     subject_to_inferred_map := subject_to_inferred_map self;
     subjects := l;
     strict := strict self |}.

Definition set_inferred (subj : string) (ancs : gset string)
    (self : AssociationSet) :=
  {| ontology := ontology self;
     association_map := association_map self;
     subject_to_inferred_map := <[subj := ancs]> (subject_to_inferred_map self);
     subjects := subjects self;
     strict := strict self |}.

Definition set_strict (b : bool) (self : AssociationSet) :=
  {| ontology := ontology self;
     association_map := association_map self;
     subject_to_inferred_map := subject_to_inferred_map self;
     subjects := subjects self;
     strict := b |}.

(** [self.ontology.ancestors(term)]; the constructor's default ontology is
    [None], on which the attribute lookup fails. *)
Definition ontology_ancestors (self : AssociationSet) (term : string)
  : result (gset string) :=
  match ontology self with
  | Some o => mret (ancestors o term)
  | None => inl AttributeError
  end.

Definition ontology_label (self : AssociationSet) (term : string)
  : result (option string) :=
  match ontology self with
  | Some o => mret (label o term)
  | None => inl AttributeError
  end.

Definition termset_ancestors (self : AssociationSet) (terms : list string)
  : result (gset string) :=
  ancs ← for_each terms
            (λ ancs term, a ← ontology_ancestors self term; mret (ancs ∪ a))
            ∅;
  mret (ancs ∪ list_to_set terms).

Definition index (self : AssociationSet) : result AssociationSet :=
  let self := set_subjects (association_map self).*1 self in
  for_each (association_map self)
    (λ self '(subj, terms),
       ancs ← termset_ancestors self terms;
       mret (set_inferred subj ancs self))
    self.

(** [AssociationSet(ontology, association_map)] *)
Definition __init__ (ontology : option Ontology)
    (association_map : list (string * list string)) : result AssociationSet :=
  index {| ontology := ontology;
           association_map := association_map;
           subject_to_inferred_map := ∅;
           subjects := [];
           strict := false |}.

Definition inferred_types (self : AssociationSet) (subj : string)
  : result (gset string) :=
  match subject_to_inferred_map self !! subj with
  | Some ancs => mret ancs
  | None =>
      if strict self then raise UnknownSubjectException [subj]
      else mret ∅
  end.

Definition query (self : AssociationSet) (terms negated_terms : list string)
  : result (list string) :=
  let termset : gset string := list_to_set terms in
  let negated_termset : gset string := list_to_set negated_terms in
  let n_terms := len termset in
  for_each (subjects self)
    (λ matches subj,
       ancs ← inferred_types self subj;
       if bool_decide (len (termset ∩ ancs) = n_terms) then
         ancs' ← inferred_types self subj;
         if bool_decide (len (negated_termset ∩ ancs') = 0)
         then mret (matches ++ [subj])
         else mret matches
       else mret matches)
    [].

(** [d[k]] on a dict *)
Definition dict_get {V : Type} (d : gmap string V) (k : string) : result V :=
  match d !! k with
  | Some v => mret v
  | None => inl (KeyError k)
  end.

(** [{'x': x, 'y': y, 'shared': shared, 'c': len(shared)}] *)
Record IntersectionRecord : Type := {
  ir_x : string;
  ir_y : string;
  ir_shared : gset string;
  ir_c : Z
}.

(** The first two loops of [query_intersections]: term -> list of the
    subjects whose closure holds the term. *)
Definition intersections_gmap_lists (self : AssociationSet) (zset : gset string)
  : result (gmap string (list string)) :=
  let gmap0 : gmap string (list string) :=
    foldl (λ g z, <[z := []]> g) ∅ (elements zset) in
  for_each (subjects self)
    (λ g subj,
       ancs ← inferred_types self subj;
       for_each (elements (ancs ∩ zset))
         (λ g a, l ← dict_get g a; mret (<[a := l ++ [subj]]> g))
         g)
    gmap0.

(** The third loop, [gmap[z] = set(gmap[z])] for every key: the source reuses
    the dict, here the set-valued dict is a second, typed one. *)
Definition intersections_gmap (self : AssociationSet) (zset : gset string)
  : result (gmap string (gset string)) :=
  glists ← intersections_gmap_lists self zset;
  for_each (elements zset)
    (λ g z, l ← dict_get glists z; mret (<[z := list_to_set l]> g))
    ∅.

Definition query_intersections (self : AssociationSet)
    (x_terms y_terms : list string) : result (list IntersectionRecord) :=
  let xset : gset string := list_to_set x_terms in
  let yset : gset string := list_to_set y_terms in
  let zset := xset ∪ yset in
  g ← intersections_gmap self zset;
  for_each x_terms
    (λ ilist x,
       for_each x_terms
         (λ ilist y,
            if String.ltb x y then
              gx ← dict_get g x;
              gy ← dict_get g y;
              let shared := gx ∩ gy in
              mret (ilist ++ [{| ir_x := x; ir_y := y;
                                 ir_shared := shared; ir_c := len shared |}])
            else mret ilist)
         ilist)
    [].

(** ** Enrichment *)

Inductive direction : Type := greater | less | two_sided.

(** [scipy.stats.fisher_exact([[a, b], [c, d]], direction)[1]]: the p-value
    of the exact test, an external primitive. *)
Definition fisher_exact_t : Type := Z → Z → Z → Z → direction → Q.

(** [{'c': cls, 'p': p, 'p_uncorrected': p_uncorrected}], with key ['n'] only
    when labels were asked for. *)
Record EnrichmentRecord : Type := {
  er_c : string;
  er_p : Q;
  er_p_uncorrected : Q;
  er_n : option (option string)
}.

(** The local variables of [enrichment_test] when the per-term loop starts. *)
Record EnrichmentCounts : Type := {
  ec_hypotheses : list string;
  ec_num_hypotheses : Z;
  ec_sample_size : Z;
  ec_bg_size : Z;
  ec_bg_count : gmap string Z;
  ec_sample_count : gmap string Z
}.

Definition incr (count : gmap string Z) (a : string) : result (gmap string Z) :=
  n ← dict_get count a; mret (<[a := n + 1]> count).

Definition effective_background (self : AssociationSet)
    (sample : gset string) (background : option (list string)) : gset string :=
  let background : gset string :=
    match background with
    | None => list_to_set (subjects self)
    | Some bg => list_to_set bg
    end in
  background ∪ sample.

Definition all_hypotheses (self : AssociationSet) (sample : gset string)
  : result (gset string) :=
  for_each (elements sample)
    (λ hypotheses s, ancs ← inferred_types self s; mret (hypotheses ∪ ancs))
    ∅.

(** Lines 177-211 of the source. *)
Definition enrichment_counts (self : AssociationSet)
    (subjects_arg : list string) (background : option (list string))
  : result EnrichmentCounts :=
  let sample : gset string := list_to_set subjects_arg in
  let sample_size := len sample in
  hypotheses ← all_hypotheses self sample;
  let background := effective_background self sample background in
  let bg_size := len background in
  let '(bg_count, sample_count) :=
    foldl (λ '(bc, sc) c, (<[c := 0]> bc, <[c := 0]> sc))
          ((∅ : gmap string Z), (∅ : gmap string Z)) (elements hypotheses) in
  bg_count ← for_each (elements background)
    (λ bg_count s,
       ancs ← inferred_types self s;
       for_each (elements (ancs ∩ hypotheses)) incr bg_count)
    bg_count;
  sample_count ← for_each (elements sample)
    (λ sample_count s,
       ancs ← inferred_types self s;
       for_each (elements ancs) incr sample_count)
    sample_count;
  hypotheses ← for_each (elements hypotheses)
    (λ kept x,
       n ← dict_get bg_count x;
       if bool_decide (n > 1) then mret (kept ++ [x]) else mret kept)
    [];
  mret {| ec_hypotheses := hypotheses;
          ec_num_hypotheses := Z.of_nat (length hypotheses);
          ec_sample_size := sample_size;
          ec_bg_size := bg_size;
          ec_bg_count := bg_count;
          ec_sample_count := sample_count |}.

(** The cells [a, b, c, d] of the 2x2 table of a term (lines 225-228). *)
Definition contingency (ec : EnrichmentCounts) (cls : string)
  : result (Z * Z * Z * Z) :=
  a ← dict_get (ec_sample_count ec) cls;
  let b := ec_sample_size ec - a in
  bgc ← dict_get (ec_bg_count ec) cls;
  let c := bgc - a in
  bgc' ← dict_get (ec_bg_count ec) cls;
  let d := (ec_bg_size ec - bgc') - b in
  mret (a, b, c, d).

(** [p = p_uncorrected * num_hypotheses; if p > 1.0: p = 1.0] *)
Definition corrected (p_uncorrected : Q) (num_hypotheses : Z) : Q :=
  let p := (p_uncorrected * inject_Z num_hypotheses)%Q in
  if Qlt_le_dec 1 p then 1%Q else p.

(** [sorted(results, key=lambda x: x['p'])]: a stable sort, here by
    insertion from the right. *)
Fixpoint insert_by_p (r : EnrichmentRecord) (l : list EnrichmentRecord)
  : list EnrichmentRecord :=
  match l with
  | [] => [r]
  | x :: l' =>
      if Qlt_le_dec (er_p x) (er_p r) then x :: insert_by_p r l'
      else r :: x :: l'
  end.

Definition sorted_by_p (l : list EnrichmentRecord) : list EnrichmentRecord :=
  foldr insert_by_p [] l.

(** Lines 213-239: the per-term loop. *)
Definition enrichment_results (fisher_exact : fisher_exact_t)
    (self : AssociationSet) (ec : EnrichmentCounts)
    (threshold : Q) (labels : bool) (dir : direction)
  : result (list EnrichmentRecord) :=
  for_each (ec_hypotheses ec)
    (λ results cls,
       '(a, b, c, d) ← contingency ec cls;
       let p_uncorrected := fisher_exact a b c d dir in
       let p := corrected p_uncorrected (ec_num_hypotheses ec) in
       if Qlt_le_dec p threshold then
         if labels then
           n ← ontology_label self cls;
           mret (results ++ [{| er_c := cls; er_p := p;
                                er_p_uncorrected := p_uncorrected;
                                er_n := Some n |}])
         else
           mret (results ++ [{| er_c := cls; er_p := p;
                                er_p_uncorrected := p_uncorrected;
                                er_n := None |}])
       else mret results)
    [].

Definition enrichment_test (fisher_exact : fisher_exact_t)
    (self : AssociationSet) (subjects_arg : list string)
    (background : option (list string)) (threshold : Q) (labels : bool)
    (dir : direction) : result (list EnrichmentRecord) :=
  ec ← enrichment_counts self subjects_arg background;
  results ← enrichment_results fisher_exact self ec threshold labels dir;
  mret (sorted_by_p results).

(** ** Similarity *)

Definition jaccard_similarity (self : AssociationSet) (s1 s2 : string)
  : result Q :=
  a1 ← inferred_types self s1;
  a2 ← inferred_types self s2;
  let num_union := len (a1 ∪ a2) in
  if bool_decide (num_union = 0) then mret 0%Q
  else mret (inject_Z (len (a1 ∩ a2)) / inject_Z num_union)%Q.

(** ** Specification-level notions *)

(** The closure stored for a subject ([closure(s)] of the specification);
    empty for a subject that was not indexed. *)
Definition closure_of (self : AssociationSet) (s : string) : gset string :=
  default ∅ (subject_to_inferred_map self !! s).

(** The association sets a client can hold: built by the constructor from a
    well-formed dict, with the [strict] attribute possibly reassigned. *)
Inductive constructed : AssociationSet → Prop :=
| constructed_by o am self b :
    NoDup am.*1 →
    __init__ o am = inr self →
    constructed (set_strict b self).

(** A subject matches a query: every include term and no exclude term is in
    its closure. *)
Definition matches (self : AssociationSet) (include exclude : gset string)
    (s : string) : Prop :=
  include ⊆ closure_of self s ∧ exclude ## closure_of self s.

#[global] Instance matches_dec self include exclude s :
  Decision (matches self include exclude s).
Proof. unfold matches. apply _. Defined.

(** The indexed subjects whose closure holds a term. *)
Definition subjects_of (self : AssociationSet) (t : string) : gset string :=
  list_to_set (filter (λ s, t ∈ closure_of self s) (subjects self)).

(** The members of a set of subjects whose closure holds a term. *)
Definition members_with (self : AssociationSet) (X : gset string)
    (c : string) : gset string :=
  filter (λ s, c ∈ closure_of self s) X.

(** The record [query_intersections] builds for a pair of terms, in terms of
    the closures. *)
Definition intersection_record (self : AssociationSet) (x y : string)
  : IntersectionRecord :=
  let shared := subjects_of self x ∩ subjects_of self y in
  {| ir_x := x; ir_y := y; ir_shared := shared; ir_c := len shared |}.

(** The pairs [x < y] drawn from a list of terms, in loop order. *)
Definition intersection_pairs (self : AssociationSet) (x_terms : list string)
  : list IntersectionRecord :=
  x ← x_terms; y ← x_terms;
  if String.ltb x y then [intersection_record self x y] else [].

(** Every closure lookup on a set of subjects returns. *)
Definition lookups_ok (self : AssociationSet) (X : gset string) : Prop :=
  ∀ s, s ∈ X → inferred_types self s = inr (closure_of self s).

(** Step 1 of the enrichment test: the union of the closures of the sample. *)
Definition hypotheses_of (self : AssociationSet) (sample : gset string)
  : gset string :=
  ⋃ (closure_of self <$> elements sample).

(** Step 3: for each hypothesis term, the number of members of [X] whose
    closure holds it. *)
Definition count_map (self : AssociationSet) (X hypotheses : gset string)
  : gmap string Z :=
  map_imap (λ c _, Some (len (members_with self X c)))
    (gset_to_gmap () hypotheses).

(** Steps 1-5 as the specification words them. *)
Definition counts_spec (self : AssociationSet) (subjects_arg : list string)
    (background : option (list string)) : EnrichmentCounts :=
  let sample : gset string := list_to_set subjects_arg in
  let hypotheses := hypotheses_of self sample in
  let bg := effective_background self sample background in
  let kept :=
    filter (λ c, len (members_with self bg c) > 1) (elements hypotheses) in
  {| ec_hypotheses := kept;
     ec_num_hypotheses := Z.of_nat (length kept);
     ec_sample_size := len sample;
     ec_bg_size := len bg;
     ec_bg_count := count_map self bg hypotheses;
     ec_sample_count := count_map self sample hypotheses |}.

(** What the per-term loop puts in a record. *)
Definition record_ok (fisher_exact : fisher_exact_t) (ec : EnrichmentCounts)
    (threshold : Q) (dir : direction) (r : EnrichmentRecord) : Prop :=
  er_c r ∈ ec_hypotheses ec
  ∧ (∃ a b c d, contingency ec (er_c r) = inr (a, b, c, d)
                ∧ er_p_uncorrected r = fisher_exact a b c d dir)
  ∧ er_p r = corrected (er_p_uncorrected r) (ec_num_hypotheses ec)
  ∧ (er_p r < threshold)%Q.

(** A reference instance of the external exact test, on exact rationals:
    the hypergeometric weights of the tables with the margins of
    [[a, b], [c, d]], summed over the tail selected by the direction and
    capped at 1. *)
Fixpoint binomial (n k : nat) : nat :=
  match n, k with
  | _, O => 1
  | O, S _ => 0
  | S n', S k' => binomial n' k' + binomial n' (S k')
  end.

Definition fisher_exact_reference : fisher_exact_t := λ a b c d dir,
  let a := Z.to_nat a in
  let b := Z.to_nat b in
  let c := Z.to_nat c in
  let d := Z.to_nat d in
  let n := (a + b)%nat in
  let weight k := (binomial (a + c) k * binomial (b + d) (n - k))%nat in
  let tail :=
    match dir with
    | greater => filter (λ k, (a ≤ k)%nat) (seq 0 (S n))
    | less => filter (λ k, (k ≤ a)%nat) (seq 0 (S n))
    | two_sided => filter (λ k, (weight k ≤ weight a)%nat) (seq 0 (S n))
    end in
  Qmin 1 (Z.of_nat (sum_list (weight <$> tail))
          # Pos.of_nat (binomial (n + c + d) n)).

(** The association set built from an empty dict. *)
Definition empty_association_set : AssociationSet :=
  {| ontology := None;
     association_map := [];
     subject_to_inferred_map := ∅;
     subjects := [];
     strict := false |}.

(** The scenario of the specification: [A -> B -> C], [g1:[A]], [g2:[A]],
    [g3:[B]]. *)
Definition scenario_ontology : Ontology :=
  {| ancestors := λ t,
       if decide (t = "A") then {["B"; "C"]}
       else if decide (t = "B") then {["C"]}
       else ∅;
     label := λ _, None |}.

Definition scenario_map : list (string * list string) :=
  [("g1", ["A"]); ("g2", ["A"]); ("g3", ["B"])].

Definition scenario_closures : gmap string (gset string) :=
  <["g3" := {["B"; "C"]}]>
    (<["g2" := {["A"; "B"; "C"]}]>
       (<["g1" := {["A"; "B"; "C"]}]> ∅)).

Definition scenario_set (strict : bool) : AssociationSet :=
  {| ontology := Some scenario_ontology;
     association_map := scenario_map;
     subject_to_inferred_map := scenario_closures;
     subjects := ["g1"; "g2"; "g3"];
     strict := strict |}.

(** ** Further notions used by the properties below *)

(** [self.association_map = am]: the dict is the client's object; a client
    that changes it calls [index] again. *)
Definition set_association_map (am : list (string * list string))
    (self : AssociationSet) :=
  {| ontology := ontology self;
     association_map := am;
     subject_to_inferred_map := subject_to_inferred_map self;
     subjects := subjects self;
     strict := strict self |}.

(** The reflexive ancestors of a list of terms, as a set. *)
Definition reflexive_ancestors (o : Ontology) (terms : list string)
  : gset string :=
  ⋃ (ancestors o <$> terms) ∪ list_to_set terms.

(** The ['n'] entry of a record: present only when labels are asked for. *)
Definition label_entry (self : AssociationSet) (labels : bool) (cls : string)
  : option (option string) :=
  if labels then
    match ontology self with
    | Some o => Some (label o cls)
    | None => None
    end
  else None.

(** What one round of the per-term loop appends: the record of the term when
    its corrected p-value is below the threshold, nothing otherwise. *)
Definition selected_record (fisher_exact : fisher_exact_t)
    (self : AssociationSet) (ec : EnrichmentCounts) (threshold : Q)
    (labels : bool) (dir : direction) (cls : string)
  : list EnrichmentRecord :=
  match contingency ec cls with
  | inr (a, b, c, d) =>
      let p_uncorrected := fisher_exact a b c d dir in
      let p := corrected p_uncorrected (ec_num_hypotheses ec) in
      if Qlt_le_dec p threshold then
        [{| er_c := cls; er_p := p; er_p_uncorrected := p_uncorrected;
            er_n := label_entry self labels cls |}]
      else []
  | inl _ => []
  end.

(** * Properties *)

(** ** The error monad and loops *)

Lemma bind_inr {A B : Type} (m : result A) (f : A → result B) (y : B) :
  m ≫= f = inr y ↔ ∃ x, m = inr x ∧ f x = inr y.
Proof.
  destruct m as [e|x]; simpl; split.
  - intros H; discriminate H.
  - intros (x & H & _); discriminate H.
  - intros H; exists x; auto.
  - intros (x' & H & Hf); injection H as ->; exact Hf.
Qed.

Ltac inv_bind H :=
  let x := fresh "x" in
  let Hx := fresh "Hx" in
  apply bind_inr in H; destruct H as (x & Hx & H).

(** A loop whose body never raises is a left fold. *)
Lemma for_each_foldl {A S : Type} (xs : list A) (body : S → A → result S)
    (g : S → A → S) s :
  (∀ s x, x ∈ xs → body s x = inr (g s x)) →
  for_each xs body s = inr (foldl g s xs).
Proof.
  revert s; induction xs as [|x xs IH]; intros s Hb; simpl; [reflexivity|].
  rewrite Hb by left. simpl. apply IH. intros s' y Hy. apply Hb. by right.
Qed.

(** A loop that only appends to its accumulator. *)
Lemma for_each_append {A B : Type} (xs : list A)
    (body : list B → A → result (list B)) (f : A → list B) (acc : list B) :
  (∀ acc x, x ∈ xs → body acc x = inr (acc ++ f x)) →
  for_each xs body acc = inr (acc ++ xs ≫= f).
Proof.
  revert acc; induction xs as [|x xs IH]; intros acc Hb; cbn [for_each].
  - by rewrite app_nil_r.
  - rewrite Hb by left. rewrite bind_cons, app_assoc.
    apply IH. intros; apply Hb; by right.
Qed.

(** A loop invariant rule: when the loop returns, every step returned. *)
Lemma for_each_ind {A S : Type} (P : list A → S → Prop) (xs : list A)
    (body : S → A → result S) s s' :
  P [] s →
  (∀ done x s1 s2, x ∈ xs → P done s1 → body s1 x = inr s2 → P (done ++ [x]) s2) →
  for_each xs body s = inr s' → P xs s'.
Proof.
  intros H0 Hstep.
  assert (∀ rest done s1, done ++ rest = xs → P done s1 →
            for_each rest body s1 = inr s' → P xs s') as Hgen.
  { induction rest as [|x rest IH]; intros done s1 Heq HP Hrun; simpl in Hrun.
    - rewrite app_nil_r in Heq. subst done. by injection Hrun as <-.
    - inv_bind Hrun. apply (IH (done ++ [x]) x0).
      + by rewrite <- app_assoc.
      + apply (Hstep done x s1 x0); auto. subst xs.
        apply elem_of_app; right; left.
      + exact Hrun. }
  intros Hrun. by apply (Hgen xs [] s).
Qed.

(** ** Indexing *)

Lemma termset_ancestors_acc (self : AssociationSet) (o : Ontology)
    (terms : list string) (acc : gset string) :
  ontology self = Some o →
  for_each terms
    (λ ancs term, a ← ontology_ancestors self term; mret (ancs ∪ a)) acc
  = inr (acc ∪ ⋃ (ancestors o <$> terms)).
Proof.
  intros Ho.
  rewrite (for_each_foldl _ _ (λ ancs term, ancs ∪ ancestors o term)).
  2: { intros s x _. unfold ontology_ancestors. by rewrite Ho. }
  f_equal. revert acc; induction terms as [|t terms IH]; intros acc; simpl.
  - set_solver.
  - rewrite IH. set_solver.
Qed.

Lemma termset_ancestors_Some (self : AssociationSet) (o : Ontology)
    (terms : list string) :
  ontology self = Some o →
  termset_ancestors self terms
  = inr (⋃ (ancestors o <$> terms) ∪ list_to_set terms).
Proof.
  intros Ho. unfold termset_ancestors.
  rewrite (termset_ancestors_acc self o) by done. simpl.
  f_equal. set_solver.
Qed.

Lemma termset_ancestors_reflexive (self : AssociationSet)
    (terms : list string) (ancs : gset string) :
  termset_ancestors self terms = inr ancs → list_to_set terms ⊆ ancs.
Proof.
  unfold termset_ancestors. intros H. inv_bind H.
  injection H as <-. set_solver.
Qed.

Lemma termset_ancestors_ontology (self self' : AssociationSet) terms :
  ontology self = ontology self' →
  termset_ancestors self terms = termset_ancestors self' terms.
Proof.
  intros Ho. unfold termset_ancestors, ontology_ancestors. by rewrite Ho.
Qed.

(** What the indexing loop leaves behind. *)
Record index_loop_post (am : list (string * list string))
    (self0 self' : AssociationSet) : Prop := {
  ilp_ontology : ontology self' = ontology self0;
  ilp_association_map : association_map self' = association_map self0;
  ilp_subjects : subjects self' = subjects self0;
  ilp_strict : strict self' = strict self0;
  ilp_old : ∀ s, s ∉ am.*1 →
    subject_to_inferred_map self' !! s = subject_to_inferred_map self0 !! s;
  ilp_some : ∀ s, s ∈ am.*1 → is_Some (subject_to_inferred_map self' !! s);
  ilp_new : ∀ s ancs, s ∈ am.*1 →
    subject_to_inferred_map self' !! s = Some ancs →
    ∃ terms, (s, terms) ∈ am ∧ termset_ancestors self0 terms = inr ancs
}.

Lemma index_loop_spec (am : list (string * list string))
    (self0 self' : AssociationSet) :
  for_each am
    (λ self '(subj, terms),
       ancs ← termset_ancestors self terms;
       mret (set_inferred subj ancs self))
    self0 = inr self' →
  index_loop_post am self0 self'.
Proof.
  intros Hrun.
  refine (for_each_ind (λ done s, index_loop_post done self0 s)
            am _ self0 self' _ _ Hrun).
  - split; try done; simpl.
    + intros s Hs. by apply elem_of_nil in Hs.
    + intros s ancs Hs. by apply elem_of_nil in Hs.
  - intros done [subj terms] s1 s2 _ [Ho Ham Hsu Hst Hold Hsome Hnew] Hbody.
    inv_bind Hbody. injection Hbody as <-.
    rewrite (termset_ancestors_ontology s1 self0) in Hx by done.
    split; simpl; try done.
    + intros s Hs. rewrite fmap_app, elem_of_app in Hs. simpl in Hs.
      rewrite lookup_insert_ne; [apply Hold; tauto|].
      intros ->. apply Hs. right. left.
    + intros s Hs. rewrite fmap_app, elem_of_app in Hs. simpl in Hs.
      destruct (decide (subj = s)) as [->|Hne].
      * rewrite lookup_insert_eq. eauto.
      * rewrite lookup_insert_ne by done. destruct Hs as [Hs|Hs]; [auto|].
        apply list_elem_of_singleton in Hs. congruence.
    + intros s ancs Hs Hlk.
      destruct (decide (subj = s)) as [->|Hne].
      * rewrite lookup_insert_eq in Hlk. injection Hlk as <-.
        exists terms. split; [|done]. apply elem_of_app; right; left.
      * rewrite lookup_insert_ne in Hlk by done.
        rewrite fmap_app, elem_of_app in Hs. simpl in Hs.
        destruct Hs as [Hs|Hs].
        -- destruct (Hnew s ancs Hs Hlk) as (terms' & Hin & Hta).
           exists terms'. split; [|done]. apply elem_of_app; by left.
        -- apply list_elem_of_singleton in Hs. congruence.
Qed.

Lemma index_spec (self self' : AssociationSet) :
  index self = inr self' →
  index_loop_post (association_map self)
    (set_subjects (association_map self).*1 self) self'.
Proof. unfold index. intros H. by apply index_loop_spec in H. Qed.

(** A loop whose body returns on every state that satisfies an invariant
    returns. *)
Lemma for_each_total {A S : Type} (I : S → Prop) (xs : list A)
    (body : S → A → result S) s :
  I s →
  (∀ s x, x ∈ xs → I s → ∃ s', body s x = inr s' ∧ I s') →
  ∃ s', for_each xs body s = inr s' ∧ I s'.
Proof.
  revert s; induction xs as [|x xs IH]; intros s Hs Hb; simpl; [eauto|].
  destruct (Hb s x) as (s1 & -> & Hs1); [left|done|]. simpl.
  apply IH; [done|]. intros s2 y Hy. apply Hb. by right.
Qed.

Lemma index_total (self : AssociationSet) :
  is_Some (ontology self) → ∃ self', index self = inr self'.
Proof.
  intros [o Ho]. unfold index.
  destruct (for_each_total (λ s, ontology s = Some o) (association_map self)
    (λ self '(subj, terms),
       ancs ← termset_ancestors self terms;
       mret (set_inferred subj ancs self))
    (set_subjects (association_map self).*1 self)) as (self' & H & _).
  - exact Ho.
  - intros s [subj terms] _ Hs.
    rewrite (termset_ancestors_Some s o) by done. simpl. eauto.
  - eauto.
Qed.

Lemma constructed_scenario (b : bool) : constructed (scenario_set b).
Proof.
  assert (__init__ (Some scenario_ontology) scenario_map
          = inr (scenario_set false)) as H by (vm_compute; reflexivity).
  change (scenario_set b) with (set_strict b (scenario_set false)).
  refine (constructed_by _ scenario_map _ b _ H).
  compute_done.
Qed.

(** After construction every listed subject has a stored closure. *)
Lemma constructed_indexed (self : AssociationSet) (s : string) :
  constructed self → s ∈ subjects self →
  is_Some (subject_to_inferred_map self !! s).
Proof.
  intros [o am self0 b _ Hinit] Hs. simpl in *.
  apply index_spec in Hinit. destruct Hinit as [_ _ Hsu _ _ Hsome _].
  simpl in *. apply Hsome. by rewrite <- Hsu.
Qed.

(** ** Closure lookup *)

Lemma inferred_types_inr (self : AssociationSet) (s : string) X :
  inferred_types self s = inr X → X = closure_of self s.
Proof.
  unfold inferred_types, closure_of.
  destruct (subject_to_inferred_map self !! s) as [ancs|]; simpl.
  - by intros [= <-].
  - destruct (strict self); [discriminate|]. by intros [= <-].
Qed.

Lemma inferred_types_present (self : AssociationSet) (s : string) :
  is_Some (subject_to_inferred_map self !! s) →
  inferred_types self s = inr (closure_of self s).
Proof.
  unfold inferred_types, closure_of. by intros [ancs ->].
Qed.

Lemma inferred_types_lenient (self : AssociationSet) (s : string) :
  strict self = false → inferred_types self s = inr (closure_of self s).
Proof.
  unfold inferred_types, closure_of. intros ->.
  by destruct (subject_to_inferred_map self !! s).
Qed.

Lemma inferred_types_strict_absent (self : AssociationSet) (s : string) :
  strict self = true → subject_to_inferred_map self !! s = None →
  inferred_types self s = inl TypeError.
Proof. unfold inferred_types. by intros -> ->. Qed.

Lemma inferred_types_constructed (self : AssociationSet) (s : string) :
  constructed self → s ∈ subjects self →
  inferred_types self s = inr (closure_of self s).
Proof.
  intros Hc Hs. by apply inferred_types_present, constructed_indexed.
Qed.

Lemma init_indexed (o : option Ontology) (am : list (string * list string))
    (self : AssociationSet) (s : string) :
  __init__ o am = inr self → s ∈ subjects self →
  is_Some (subject_to_inferred_map self !! s).
Proof.
  intros Hinit Hs. apply index_spec in Hinit.
  destruct Hinit as [_ _ Hsu _ _ Hsome _]. simpl in *.
  apply Hsome. by rewrite <- Hsu.
Qed.

Lemma init_fields (o : option Ontology) (am : list (string * list string))
    (self : AssociationSet) :
  __init__ o am = inr self →
  ontology self = o ∧ association_map self = am ∧ subjects self = am.*1
  ∧ strict self = false.
Proof.
  intros Hinit. apply index_spec in Hinit.
  by destruct Hinit as [? ? ? ? _ _ _].
Qed.

Lemma NoDup_fst_functional {A B : Type} (l : list (A * B)) x y1 y2 :
  NoDup l.*1 → (x, y1) ∈ l → (x, y2) ∈ l → y1 = y2.
Proof.
  induction l as [|[a b] l IH]; simpl; intros Hnd H1 H2.
  - by apply elem_of_nil in H1.
  - apply NoDup_cons in Hnd as [Hnotin Hnd].
    rewrite elem_of_cons in H1, H2.
    destruct H1 as [H1|H1], H2 as [H2|H2]; simplify_eq; auto.
    + exfalso. apply Hnotin. apply list_elem_of_fmap. by exists (a, y2).
    + exfalso. apply Hnotin. apply list_elem_of_fmap. by exists (a, y1).
Qed.

(** The closure stored for a key of the dict comes from its own terms. *)
Lemma init_lookup (o : option Ontology) (am : list (string * list string))
    (self : AssociationSet) (s : string) (terms : list string) :
  NoDup am.*1 → __init__ o am = inr self → (s, terms) ∈ am →
  ∃ ancs, subject_to_inferred_map self !! s = Some ancs
          ∧ termset_ancestors self terms = inr ancs.
Proof.
  intros Hnd Hinit Hin. apply index_spec in Hinit.
  destruct Hinit as [Ho _ _ _ _ Hsome Hnew]. simpl in *.
  assert (s ∈ am.*1) as Hs by (apply list_elem_of_fmap; by exists (s, terms)).
  destruct (Hsome s Hs) as [ancs Hlk]. exists ancs. split; [done|].
  destruct (Hnew s ancs Hs Hlk) as (terms' & Hin' & Hta).
  rewrite (NoDup_fst_functional am s terms terms') by done.
  rewrite <- Hta. by apply termset_ancestors_ontology.
Qed.

(** ** Boolean queries *)

Lemma len_nonneg (X : gset string) : 0 ≤ len X.
Proof. unfold len. lia. Qed.

Lemma len_inter_full (X Y : gset string) : len (X ∩ Y) = len X ↔ X ⊆ Y.
Proof.
  unfold len. split.
  - intros H. assert (X ∩ Y = X) as Heq.
    { apply set_subseteq_size_eq; [set_solver|lia]. }
    set_solver.
  - intros H. by replace (X ∩ Y) with X by set_solver.
Qed.

Lemma len_inter_none (X Y : gset string) : len (X ∩ Y) = 0 ↔ X ## Y.
Proof.
  unfold len. rewrite disjoint_intersection_L.
  split.
  - intros H. apply leibniz_equiv, size_empty_iff. lia.
  - intros ->. by rewrite size_empty.
Qed.

Lemma query_loop (self : AssociationSet) (include exclude : gset string)
    (l acc : list string) :
  (∀ s, s ∈ l → inferred_types self s = inr (closure_of self s)) →
  for_each l
    (λ matches subj,
       ancs ← inferred_types self subj;
       if bool_decide (len (include ∩ ancs) = len include) then
         ancs' ← inferred_types self subj;
         if bool_decide (len (exclude ∩ ancs') = 0)
         then mret (matches ++ [subj])
         else mret matches
       else mret matches)
    acc
  = inr (acc ++ filter (matches self include exclude) l).
Proof.
  revert acc; induction l as [|s l IH]; intros acc Hl; simpl.
  - by rewrite app_nil_r.
  - rewrite (Hl s) by left. simpl.
    assert (∀ s0, s0 ∈ l → inferred_types self s0 = inr (closure_of self s0))
      as Hl' by (intros; apply Hl; by right).
    rewrite filter_cons.
    destruct (decide (matches self include exclude s)) as [[Hi He]|Hn].
    + rewrite bool_decide_eq_true_2 by (by apply len_inter_full).
      rewrite bool_decide_eq_true_2 by (by apply len_inter_none). simpl.
      rewrite IH by done. by rewrite <- app_assoc.
    + case_bool_decide as Hinc; [case_bool_decide as Hexc|]; simpl;
        try by apply IH.
      exfalso. apply Hn.
      split; [by apply len_inter_full|by apply len_inter_none].
Qed.

Lemma query_filter (self : AssociationSet) (terms negated_terms : list string) :
  (∀ s, s ∈ subjects self → inferred_types self s = inr (closure_of self s)) →
  query self terms negated_terms
  = inr (filter (matches self (list_to_set terms) (list_to_set negated_terms))
           (subjects self)).
Proof. intros H. unfold query. by rewrite query_loop. Qed.

Lemma matches_iff (self : AssociationSet) (terms negated_terms : list string)
    (s : string) :
  matches self (list_to_set terms) (list_to_set negated_terms) s
  ↔ (∀ t, t ∈ terms → t ∈ closure_of self s)
    ∧ (∀ t, t ∈ negated_terms → t ∉ closure_of self s).
Proof. unfold matches. set_solver. Qed.

Lemma filter_all {A : Type} (P : A → Prop) `{!∀ x, Decision (P x)}
    (l : list A) :
  (∀ x, x ∈ l → P x) → filter P l = l.
Proof.
  induction l as [|x l IH]; intros Hall; [done|].
  rewrite filter_cons, decide_True by (apply Hall; left).
  f_equal. apply IH. intros y Hy. apply Hall. by right.
Qed.

(** C1: on a constructed association set, [query] returns exactly the
    indexed subjects whose closure holds every include term and no exclude
    term, in the order of [subjects]; with no include and no exclude term it
    returns every indexed subject in that order. *)
Theorem query_exact (self : AssociationSet) (include exclude : list string) :
  constructed self →
  query self include exclude
  = inr (filter (matches self (list_to_set include) (list_to_set exclude))
           (subjects self))
  ∧ (∀ s, matches self (list_to_set include) (list_to_set exclude) s
          ↔ (∀ t, t ∈ include → t ∈ closure_of self s)
            ∧ (∀ t, t ∈ exclude → t ∉ closure_of self s))
  ∧ query self [] [] = inr (subjects self).
Proof.
  intros Hc.
  assert (∀ s, s ∈ subjects self →
               inferred_types self s = inr (closure_of self s)) as Hl
    by (intros; by apply inferred_types_constructed).
  split; [by apply query_filter|]. split; [apply matches_iff|].
  rewrite query_filter by done. f_equal. apply filter_all.
  intros s _. apply matches_iff. split; intros t Ht; by apply elem_of_nil in Ht.
Qed.

Lemma query_exact_witness :
  constructed (scenario_set false)
  ∧ query (scenario_set false) ["B"] ["A"] = inr ["g3"]
  ∧ query (scenario_set false) [] [] = inr ["g1"; "g2"; "g3"].
Proof.
  split; [apply constructed_scenario|].
  destruct (query_exact (scenario_set false) ["B"] ["A"]
              (constructed_scenario false)) as (H1 & _ & H2).
  split; [rewrite H1; vm_compute; reflexivity|exact H2].
Defined.

(** C2: for every ontology and every (well-formed) direct-annotation map,
    construction succeeds, and the closure stored for each subject of the map
    holds every one of its direct terms; the invariant also holds for any
    construction that returns. *)
Theorem closure_superset_direct (o : option Ontology)
    (am : list (string * list string)) :
  NoDup am.*1 →
  (is_Some o → ∃ self, __init__ o am = inr self)
  ∧ (∀ self b s terms,
       __init__ o am = inr self → (s, terms) ∈ am →
       ∃ ancs, subject_to_inferred_map self !! s = Some ancs
               ∧ inferred_types (set_strict b self) s = inr ancs
               ∧ (∀ t, t ∈ terms → t ∈ ancs)).
Proof.
  intros Hnd. split.
  - intros Ho. by apply index_total.
  - intros self b s terms Hinit Hin.
    destruct (init_lookup o am self s terms) as (ancs & Hlk & Hta); try done.
    exists ancs. split; [done|]. split.
    + unfold inferred_types. simpl. by rewrite Hlk.
    + apply termset_ancestors_reflexive in Hta. set_solver.
Qed.

Lemma closure_superset_direct_witness :
  NoDup scenario_map.*1
  ∧ ∃ ancs, subject_to_inferred_map (scenario_set false) !! "g3" = Some ancs
            ∧ inferred_types (set_strict true (scenario_set false)) "g3"
              = inr ancs
            ∧ (∀ t, t ∈ ["B"] → t ∈ ancs).
Proof.
  assert (NoDup scenario_map.*1) as Hnd by compute_done.
  split; [exact Hnd|].
  apply (proj2 (closure_superset_direct (Some scenario_ontology)
                  scenario_map Hnd) (scenario_set false) true "g3" ["B"]).
  - vm_compute. reflexivity.
  - compute_done.
Defined.

(** C10: after construction every subject of [subjects] has an entry in
    [subject_to_inferred_map]; so, whatever the [strict] attribute is set to,
    [inferred_types] returns the stored closure for an indexed subject and
    [query] returns a list for every pair of arguments. *)
Theorem indexed_subjects_have_closures (o : option Ontology)
    (am : list (string * list string)) (self0 : AssociationSet) (b : bool) :
  __init__ o am = inr self0 →
  let self := set_strict b self0 in
  (∀ s, s ∈ subjects self → is_Some (subject_to_inferred_map self !! s))
  ∧ (∀ s, s ∈ subjects self → ∃ ancs,
        subject_to_inferred_map self !! s = Some ancs
        ∧ inferred_types self s = inr ancs)
  ∧ (∀ terms negated_terms, ∃ l, query self terms negated_terms = inr l).
Proof.
  intros Hinit self.
  assert (∀ s, s ∈ subjects self →
               is_Some (subject_to_inferred_map self !! s)) as Hsome
    by (intros s Hs; by apply (init_indexed o am self0)).
  split; [exact Hsome|]. split.
  - intros s Hs. destruct (Hsome s Hs) as [ancs Hlk]. exists ancs.
    split; [done|]. unfold inferred_types. by rewrite Hlk.
  - intros terms negated_terms. eexists. apply query_filter.
    intros s Hs. by apply inferred_types_present, Hsome.
Qed.

Lemma indexed_subjects_have_closures_witness :
  __init__ (Some scenario_ontology) scenario_map = inr (scenario_set false)
  ∧ ∃ l, query (set_strict true (scenario_set false)) ["C"] ["A"] = inr l.
Proof.
  assert (__init__ (Some scenario_ontology) scenario_map
          = inr (scenario_set false)) as H by (vm_compute; reflexivity).
  split; [exact H|].
  apply (indexed_subjects_have_closures _ _ _ true H).
Defined.

(** ** Dicts updated in a loop *)

Lemma dict_get_Some {V : Type} (d : gmap string V) (k : string) (v : V) :
  d !! k = Some v → dict_get d k = inr v.
Proof. unfold dict_get. by intros ->. Qed.

(** [for a in la: d[a] = f(d[a])] over distinct, present keys. *)
Lemma for_each_update {V : Type} (f : V → V) (la : list string)
    (d : gmap string V) :
  NoDup la → (∀ a, a ∈ la → is_Some (d !! a)) →
  ∃ d', for_each la (λ d a, v ← dict_get d a; mret (<[a := f v]> d)) d = inr d'
        ∧ ∀ z, d' !! z = if decide (z ∈ la) then f <$> d !! z else d !! z.
Proof.
  revert d; induction la as [|a la IH]; intros d Hnd Hdom; cbn [for_each].
  - exists d. split; [done|]. intros z. rewrite decide_False; [done|].
    apply not_elem_of_nil.
  - apply NoDup_cons in Hnd as [Ha Hnd].
    destruct (Hdom a) as [v Hv]; [left|].
    rewrite (dict_get_Some _ _ _ Hv). simpl.
    destruct (IH (<[a := f v]> d) Hnd) as (d' & Hrun & Hd').
    { intros b Hb. destruct (decide (a = b)) as [->|Hne].
      - rewrite lookup_insert_eq. eauto.
      - rewrite lookup_insert_ne by done. apply Hdom. by right. }
    exists d'. split; [done|]. intros z. rewrite Hd'.
    destruct (decide (a = z)) as [->|Hne].
    + rewrite decide_False by done. rewrite decide_True by left.
      by rewrite lookup_insert_eq, Hv.
    + rewrite lookup_insert_ne by done.
      destruct (decide (z ∈ la)) as [Hz|Hz].
      * rewrite decide_True; [done|by right].
      * rewrite decide_False; [done|]. rewrite elem_of_cons. naive_solver.
Qed.

(** [for z in l: d[z] = v0] *)
Lemma foldl_insert_lookup {V : Type} (v0 : V) (l : list string)
    (d : gmap string V) (z : string) :
  foldl (λ g z, <[z := v0]> g) d l !! z
  = if decide (z ∈ l) then Some v0 else d !! z.
Proof.
  revert d; induction l as [|a l IH]; intros d; cbn [foldl].
  - rewrite decide_False; [done|apply not_elem_of_nil].
  - rewrite IH. destruct (decide (z ∈ l)) as [Hz|Hz].
    + rewrite decide_True; [done|by right].
    + destruct (decide (a = z)) as [->|Hne].
      * rewrite decide_True by left. by rewrite lookup_insert_eq.
      * rewrite lookup_insert_ne by done. rewrite decide_False; [done|].
        rewrite elem_of_cons. naive_solver.
Qed.

(** ** Pairwise intersections *)

Section intersections.
Context (self : AssociationSet) (zset : gset string).
Hypothesis lookups : ∀ s, s ∈ subjects self →
  inferred_types self s = inr (closure_of self s).

#[local] Abbreviation holds z := (λ s : string, z ∈ closure_of self s).

Lemma gmap_lists_loop (l pre : list string) (g : gmap string (list string)) :
  (∀ s, s ∈ l → s ∈ subjects self) →
  (∀ z, g !! z = if decide (z ∈ zset) then Some (filter (holds z) pre)
                 else None) →
  ∃ g', for_each l
          (λ g subj,
             ancs ← inferred_types self subj;
             for_each (elements (ancs ∩ zset))
               (λ g a, l ← dict_get g a; mret (<[a := l ++ [subj]]> g))
               g)
          g = inr g'
        ∧ ∀ z, g' !! z = if decide (z ∈ zset)
                         then Some (filter (holds z) (pre ++ l))
                         else None.
Proof.
  revert pre g; induction l as [|s l IH]; intros pre g Hl Hg; simpl.
  - exists g. split; [done|]. by rewrite app_nil_r.
  - rewrite lookups by (apply Hl; left). simpl.
    destruct (for_each_update (λ l, l ++ [s])
                (elements (closure_of self s ∩ zset)) g)
      as (g1 & -> & Hg1).
    { apply NoDup_elements. }
    { intros a Ha. apply elem_of_elements in Ha. rewrite Hg.
      rewrite decide_True by set_solver. eauto. }
    simpl. destruct (IH (pre ++ [s]) g1) as (g' & Hrun & Hg').
    { intros s' Hs'. apply Hl. by right. }
    { intros z. rewrite Hg1, Hg, filter_app, filter_cons, filter_nil.
      destruct (decide (z ∈ zset)) as [Hz|Hz].
      - destruct (decide (z ∈ closure_of self s)) as [Hh|Hh].
        + rewrite decide_True; [done|]. apply elem_of_elements.
          set_solver.
        + rewrite decide_False; [by rewrite app_nil_r|].
          rewrite elem_of_elements. set_solver.
      - rewrite decide_False; [done|]. rewrite elem_of_elements. set_solver. }
    exists g'. split; [done|]. intros z. rewrite Hg'.
    by rewrite <- app_assoc.
Qed.

Lemma intersections_gmap_lists_spec :
  ∃ g, intersections_gmap_lists self zset = inr g
       ∧ ∀ z, g !! z = if decide (z ∈ zset)
                       then Some (filter (holds z) (subjects self))
                       else None.
Proof.
  unfold intersections_gmap_lists.
  apply (gmap_lists_loop (subjects self) []); [done|].
  intros z. rewrite foldl_insert_lookup, lookup_empty.
  destruct (decide (z ∈ zset)) as [Hz|Hz].
  - rewrite decide_True; [done|by apply elem_of_elements].
  - rewrite decide_False; [done|by rewrite elem_of_elements].
Qed.

Lemma to_sets_loop (glists : gmap string (list string)) (l : list string)
    (acc : gmap string (gset string)) :
  (∀ z, z ∈ l → is_Some (glists !! z)) →
  ∃ g, for_each l
         (λ g z, l ← dict_get glists z; mret (<[z := list_to_set l]> g))
         acc = inr g
       ∧ ∀ z, g !! z = if decide (z ∈ l)
                       then list_to_set <$> glists !! z
                       else acc !! z.
Proof.
  revert acc; induction l as [|a l IH]; intros acc Hl; cbn [for_each].
  - exists acc. split; [done|]. intros z.
    rewrite decide_False; [done|apply not_elem_of_nil].
  - destruct (Hl a) as [v Hv]; [left|].
    rewrite (dict_get_Some _ _ _ Hv). simpl.
    destruct (IH (<[a := list_to_set v]> acc)) as (g & Hrun & Hg).
    { intros z Hz. apply Hl. by right. }
    exists g. split; [done|]. intros z. rewrite Hg.
    destruct (decide (z ∈ l)) as [Hz|Hz].
    + rewrite decide_True; [done|by right].
    + destruct (decide (a = z)) as [->|Hne].
      * rewrite decide_True by left. by rewrite lookup_insert_eq, Hv.
      * rewrite lookup_insert_ne by done. rewrite decide_False; [done|].
        rewrite elem_of_cons. naive_solver.
Qed.

Lemma intersections_gmap_spec :
  ∃ g, intersections_gmap self zset = inr g
       ∧ ∀ z, g !! z = if decide (z ∈ zset)
                       then Some (subjects_of self z)
                       else None.
Proof.
  unfold intersections_gmap.
  destruct intersections_gmap_lists_spec as (glists & -> & Hgl). simpl.
  destruct (to_sets_loop glists (elements zset) ∅) as (g & Hrun & Hg).
  { intros z Hz. apply elem_of_elements in Hz. rewrite Hgl.
    rewrite decide_True by done. eauto. }
  exists g. split; [done|]. intros z. rewrite Hg, Hgl, lookup_empty.
  destruct (decide (z ∈ zset)) as [Hz|Hz].
  - rewrite decide_True; [done|by apply elem_of_elements].
  - rewrite decide_False; [done|by rewrite elem_of_elements].
Qed.
End intersections.

Lemma ltb_irrefl (x : string) : String.ltb x x = false.
Proof.
  unfold String.ltb. pose proof (String.compare_antisym x x) as H.
  by destruct (String.compare x x).
Qed.


Lemma pairs_inner_loop (self : AssociationSet)
    (g : gmap string (gset string)) (x : string) (ys : list string)
    (acc : list IntersectionRecord) :
  g !! x = Some (subjects_of self x) →
  (∀ y, y ∈ ys → g !! y = Some (subjects_of self y)) →
  for_each ys
    (λ ilist y,
       if String.ltb x y then
         gx ← dict_get g x;
         gy ← dict_get g y;
         let shared := gx ∩ gy in
         mret (ilist ++ [{| ir_x := x; ir_y := y;
                            ir_shared := shared; ir_c := len shared |}])
       else mret ilist)
    acc
  = inr (acc ++ (y ← ys;
                 if String.ltb x y then [intersection_record self x y]
                 else [])).
Proof.
  intros Hx Hys. apply for_each_append. intros il y Hy.
  destruct (String.ltb x y); [|by rewrite app_nil_r].
  by rewrite (dict_get_Some _ _ _ Hx), (dict_get_Some _ _ _ (Hys y Hy)).
Qed.

Lemma pairs_outer_loop (self : AssociationSet)
    (g : gmap string (gset string)) (xs ys : list string)
    (acc : list IntersectionRecord) :
  (∀ x, x ∈ xs → g !! x = Some (subjects_of self x)) →
  (∀ y, y ∈ ys → g !! y = Some (subjects_of self y)) →
  for_each xs
    (λ ilist x,
       for_each ys
         (λ ilist y,
            if String.ltb x y then
              gx ← dict_get g x;
              gy ← dict_get g y;
              let shared := gx ∩ gy in
              mret (ilist ++ [{| ir_x := x; ir_y := y;
                                 ir_shared := shared; ir_c := len shared |}])
            else mret ilist)
         ilist)
    acc
  = inr (acc ++ (x ← xs; y ← ys;
                 if String.ltb x y then [intersection_record self x y]
                 else [])).
Proof.
  intros Hxs Hys.
  apply (for_each_append xs _
           (λ x, y ← ys; if String.ltb x y then [intersection_record self x y]
                         else [])).
  intros il x Hx. apply pairs_inner_loop; auto.
Qed.

(** On a set whose indexed subjects all have a closure, [query_intersections]
    returns the records of the pairs drawn from [x_terms]. *)
Lemma query_intersections_pairs (self : AssociationSet)
    (x_terms y_terms : list string) :
  (∀ s, s ∈ subjects self → inferred_types self s = inr (closure_of self s)) →
  query_intersections self x_terms y_terms
  = inr (intersection_pairs self x_terms).
Proof.
  intros Hl. unfold query_intersections.
  destruct (intersections_gmap_spec self
              (list_to_set x_terms ∪ list_to_set y_terms) Hl)
    as (g & -> & Hg).
  assert (∀ x, x ∈ x_terms → g !! x = Some (subjects_of self x)) as Hx.
  { intros x Hin. rewrite Hg. rewrite decide_True; [done|]. set_solver. }
  exact (pairs_outer_loop self g x_terms x_terms [] Hx Hx).
Qed.

Lemma elem_of_intersection_pairs (self : AssociationSet)
    (x_terms : list string) (r : IntersectionRecord) :
  r ∈ intersection_pairs self x_terms
  ↔ ∃ x y, x ∈ x_terms ∧ y ∈ x_terms ∧ String.ltb x y = true
           ∧ r = intersection_record self x y.
Proof.
  unfold intersection_pairs. rewrite list_elem_of_bind. split.
  - intros (x & Hr & Hx). apply list_elem_of_bind in Hr as (y & Hr & Hy).
    destruct (String.ltb x y) eqn:Hlt; [|by apply elem_of_nil in Hr].
    apply list_elem_of_singleton in Hr. by exists x, y.
  - intros (x & y & Hx & Hy & Hlt & ->). exists x. split; [|done].
    apply list_elem_of_bind. exists y. split; [|done].
    rewrite Hlt. by apply list_elem_of_singleton.
Qed.

Lemma elem_of_subjects_of (self : AssociationSet) (t s : string) :
  s ∈ subjects_of self t ↔ s ∈ subjects self ∧ t ∈ closure_of self s.
Proof.
  unfold subjects_of. rewrite elem_of_list_to_set, list_elem_of_filter. tauto.
Qed.





(** C7: on a constructed association set the result of
    [query_intersections] is the same whatever [y_terms] is, and both terms
    of every returned record come from [x_terms]. *)
Theorem intersections_ignore_y_terms (self : AssociationSet)
    (x_terms y_terms1 y_terms2 : list string) :
  constructed self →
  query_intersections self x_terms y_terms1
  = query_intersections self x_terms y_terms2
  ∧ ∃ ilist, query_intersections self x_terms y_terms1 = inr ilist
      ∧ ∀ r, r ∈ ilist → ir_x r ∈ x_terms ∧ ir_y r ∈ x_terms.
Proof.
  intros Hc.
  assert (∀ s, s ∈ subjects self →
               inferred_types self s = inr (closure_of self s)) as Hl
    by (intros; by apply inferred_types_constructed).
  rewrite !query_intersections_pairs by done. split; [done|].
  eexists. split; [done|]. intros r Hr.
  apply elem_of_intersection_pairs in Hr as (x & y & Hx & Hy & _ & ->).
  by simpl.
Qed.

Lemma intersections_ignore_y_terms_witness :
  constructed (scenario_set true)
  ∧ query_intersections (scenario_set true) ["A"; "B"] []
    = query_intersections (scenario_set true) ["A"; "B"] ["C"; "D"].
Proof.
  split; [apply constructed_scenario|].
  apply (intersections_ignore_y_terms (scenario_set true) ["A"; "B"] []
           ["C"; "D"] (constructed_scenario true)).
Defined.

(** ** Strict and lenient lookup *)

(** C4 (the code departs from the claim in strict mode): a subject that is
    present gets its stored closure and, in lenient mode, an absent subject
    gets the empty set; but in strict mode the lookup of an absent subject
    fails with [TypeError], not with an [UnknownSubjectException]: the class
    is declared without a constructor argument and without an exception
    base, so [raise UnknownSubjectException(subj)] cannot build or raise the
    instance. *)
Theorem strict_absent_subject_TypeError :
  subject_to_inferred_map (scenario_set true) !! "g9" = None
  ∧ inferred_types (scenario_set true) "g9" = inl TypeError
  ∧ inferred_types (scenario_set true) "g9"
    ≠ inl (Raised "UnknownSubjectException" ["g9"])
  ∧ inferred_types (scenario_set false) "g9" = inr ∅
  ∧ inferred_types (scenario_set true) "g1" = inr {["A"; "B"; "C"]}.
Proof.
  split; [by vm_compute|].
  assert (inferred_types (scenario_set true) "g9" = inl TypeError) as H
    by (by vm_compute).
  split; [exact H|]. split; [by rewrite H|].
  split; by vm_compute.
Qed.

(** ** Jaccard similarity *)

Lemma inject_Z_pos (b : Z) : 0 < b → (0 < inject_Z b)%Q.
Proof. intros H. change (inject_Z 0 < inject_Z b)%Q. by rewrite <- Zlt_Qlt. Qed.

Lemma inject_Z_le (a b : Z) : a ≤ b → (inject_Z a <= inject_Z b)%Q.
Proof. intros H. by rewrite <- Zle_Qle. Qed.

Lemma Qdiv_unit_interval (a b : Z) :
  0 ≤ a ≤ b → 0 < b → (0 <= inject_Z a / inject_Z b <= 1)%Q.
Proof.
  intros [Ha Hab] Hb. apply inject_Z_pos in Hb as Hb'. split.
  - apply Qle_shift_div_l; [done|]. rewrite Qmult_0_l.
    by apply (inject_Z_le 0 a).
  - apply Qle_shift_div_r; [done|]. rewrite Qmult_1_l. by apply inject_Z_le.
Qed.

Lemma Qdiv_same (b : Z) : 0 < b → (inject_Z b / inject_Z b == 1)%Q.
Proof.
  intros Hb. apply Qmult_inv_r. intros H.
  apply inject_Z_pos in Hb. rewrite H in Hb. by apply Qlt_irrefl in Hb.
Qed.

Lemma len_pos (X : gset string) : X ≠ ∅ → 0 < len X.
Proof.
  intros HX. unfold len.
  assert (size X ≠ 0%nat) by (intros H; by apply size_empty_inv, leibniz_equiv in H).
  lia.
Qed.

Lemma len_zero (X : gset string) : len X = 0 ↔ X = ∅.
Proof.
  split.
  - intros H. destruct (decide (X = ∅)) as [|Hne]; [done|].
    apply len_pos in Hne. lia.
  - intros ->. unfold len. by rewrite size_empty.
Qed.

(** C5: whenever both closure lookups return (always in lenient mode, and
    for indexed subjects in strict mode), [jaccard_similarity] returns
    [|c1 ∩ c2| / |c1 ∪ c2|] when the union is not empty and [0] when both
    closures are empty; the value lies between 0 and 1, and is 1 for a
    subject with a non-empty closure compared with itself. *)
Theorem jaccard_similarity_spec (self : AssociationSet) (s1 s2 : string) :
  (strict self = true →
   is_Some (subject_to_inferred_map self !! s1)
   ∧ is_Some (subject_to_inferred_map self !! s2)) →
  let c1 := closure_of self s1 in
  let c2 := closure_of self s2 in
  ∃ q, jaccard_similarity self s1 s2 = inr q
    ∧ (c1 ∪ c2 ≠ ∅ →
       q = (inject_Z (len (c1 ∩ c2)) / inject_Z (len (c1 ∪ c2)))%Q)
    ∧ (c1 = ∅ → c2 = ∅ → q = 0%Q)
    ∧ (0 <= q <= 1)%Q
    ∧ (s1 = s2 → c1 ≠ ∅ → (q == 1)%Q).
Proof.
  intros Hstrict c1 c2.
  assert (inferred_types self s1 = inr c1 ∧ inferred_types self s2 = inr c2)
    as [H1 H2].
  { destruct (strict self) eqn:Hs.
    - destruct Hstrict as [? ?]; [done|].
      split; by apply inferred_types_present.
    - split; by apply inferred_types_lenient. }
  unfold jaccard_similarity. rewrite H1, H2. simpl.
  case_bool_decide as Hz.
  - apply len_zero in Hz. exists 0%Q. split; [done|].
    split; [done|]. split; [done|]. split; [done|].
    intros -> Hne. exfalso. apply Hne.
    fold c1 c2 in Hz. set_solver.
  - assert (c1 ∪ c2 ≠ ∅) as Hne by (by rewrite <- len_zero).
    assert (0 < len (c1 ∪ c2)) as Hpos by (by apply len_pos).
    eexists. split; [done|]. split; [done|]. split.
    { intros -> ->. exfalso. apply Hne. set_solver. }
    split.
    { apply Qdiv_unit_interval; [|done]. split; [apply len_nonneg|].
      unfold len. apply inj_le. apply subseteq_size. set_solver. }
    intros Heq _. subst c1 c2. rewrite Heq in *.
    rewrite intersection_idemp_L. rewrite union_idemp_L in *.
    by apply Qdiv_same.
Qed.

Lemma jaccard_similarity_spec_witness :
  (strict (scenario_set true) = true →
   is_Some (subject_to_inferred_map (scenario_set true) !! "g1")
   ∧ is_Some (subject_to_inferred_map (scenario_set true) !! "g3"))
  ∧ ∃ q, jaccard_similarity (scenario_set true) "g1" "g3" = inr q
         ∧ (0 <= q <= 1)%Q.
Proof.
  assert (strict (scenario_set true) = true →
          is_Some (subject_to_inferred_map (scenario_set true) !! "g1")
          ∧ is_Some (subject_to_inferred_map (scenario_set true) !! "g3"))
    as H by (intros _; split; compute_done).
  split; [exact H|].
  destruct (jaccard_similarity_spec (scenario_set true) "g1" "g3" H)
    as (q & Hq & _ & _ & Hr & _).
  exists q. by split.
Defined.

(** ** Enrichment: the counting loops *)

Lemma for_each_incr (la : list string) (d : gmap string Z) :
  NoDup la → (∀ a, a ∈ la → is_Some (d !! a)) →
  ∃ d', for_each la incr d = inr d'
        ∧ ∀ z, d' !! z = if decide (z ∈ la) then (λ n, n + 1) <$> d !! z
                         else d !! z.
Proof. exact (for_each_update (λ n, n + 1) la d). Qed.

Lemma for_each_inr_steps {A S : Type} (xs : list A) (body : S → A → result S)
    s s' :
  for_each xs body s = inr s' → ∀ x, x ∈ xs → ∃ s1 s2, body s1 x = inr s2.
Proof.
  revert s; induction xs as [|y xs IH]; intros s Hrun x Hx.
  - by apply elem_of_nil in Hx.
  - cbn [for_each] in Hrun. inv_bind Hrun.
    apply elem_of_cons in Hx as [->|Hx]; [eauto|]. by apply (IH x0).
Qed.

Lemma lookups_ok_lenient (self : AssociationSet) (X : gset string) :
  strict self = false → lookups_ok self X.
Proof. intros Hs s _. by apply inferred_types_lenient. Qed.

Lemma lookups_ok_subseteq (self : AssociationSet) (X Y : gset string) :
  X ⊆ Y → lookups_ok self Y → lookups_ok self X.
Proof. intros HXY HY s Hs. apply HY. set_solver. Qed.

(** A loop whose body starts with the closure lookup of its element returns
    only if all these lookups return. *)
Lemma for_each_lookups_ok {S : Type} (self : AssociationSet) (X : gset string)
    (rest : S → string → gset string → result S) s s' :
  for_each (elements X)
    (λ st subj, ancs ← inferred_types self subj; rest st subj ancs) s
  = inr s' →
  lookups_ok self X.
Proof.
  intros Hrun subj Hsubj.
  destruct (for_each_inr_steps _ _ _ _ Hrun subj) as (s1 & s2 & Hb).
  { by apply elem_of_elements. }
  inv_bind Hb. rewrite Hx. f_equal. by apply inferred_types_inr.
Qed.

Lemma all_hypotheses_loop (self : AssociationSet) (l : list string)
    (acc : gset string) :
  (∀ s, s ∈ l → inferred_types self s = inr (closure_of self s)) →
  for_each l
    (λ hypotheses s, ancs ← inferred_types self s; mret (hypotheses ∪ ancs))
    acc
  = inr (acc ∪ ⋃ (closure_of self <$> l)).
Proof.
  intros Hl.
  rewrite (for_each_foldl _ _ (λ h s, h ∪ closure_of self s)).
  2: { intros h s Hs. by rewrite Hl. }
  f_equal. clear Hl. revert acc; induction l as [|s l IH]; intros acc; simpl.
  - set_solver.
  - rewrite IH. set_solver.
Qed.

Lemma all_hypotheses_spec (self : AssociationSet) (sample : gset string) :
  lookups_ok self sample →
  all_hypotheses self sample = inr (hypotheses_of self sample).
Proof.
  intros Hok. unfold all_hypotheses, hypotheses_of.
  rewrite all_hypotheses_loop.
  - f_equal. set_solver.
  - intros s Hs. apply Hok. by apply elem_of_elements.
Qed.

Lemma elem_of_hypotheses_of (self : AssociationSet) (sample : gset string)
    (c : string) :
  c ∈ hypotheses_of self sample ↔ ∃ s, s ∈ sample ∧ c ∈ closure_of self s.
Proof.
  unfold hypotheses_of. rewrite elem_of_union_list. split.
  - intros (X & HX & Hc). apply list_elem_of_fmap in HX as (s & -> & Hs).
    exists s. split; [by apply elem_of_elements|done].
  - intros (s & Hs & Hc). exists (closure_of self s). split; [|done].
    apply list_elem_of_fmap. exists s. split; [done|by apply elem_of_elements].
Qed.

Section counting.
Context (self : AssociationSet) (hypotheses : gset string).

#[local] Abbreviation holds c := (λ s : string, c ∈ closure_of self s).

#[local] Abbreviation counted c l := (Z.of_nat (length (filter (holds c) l))).

(** The two counting loops differ in the keys the inner loop visits. *)
Lemma count_loop (keys : gset string → list string) (l pre : list string)
    (count : gmap string Z) :
  (∀ s, s ∈ l → inferred_types self s = inr (closure_of self s)) →
  (∀ s, s ∈ l → NoDup (keys (closure_of self s))) →
  (∀ s c, s ∈ l →
     c ∈ keys (closure_of self s) ↔ c ∈ closure_of self s ∧ c ∈ hypotheses) →
  (∀ c, count !! c = if decide (c ∈ hypotheses) then Some (counted c pre)
                     else None) →
  ∃ count',
    for_each l
      (λ count s, ancs ← inferred_types self s; for_each (keys ancs) incr count)
      count = inr count'
    ∧ ∀ c, count' !! c = if decide (c ∈ hypotheses)
                         then Some (counted c (pre ++ l))
                         else None.
Proof.
  revert pre count; induction l as [|s l IH];
    intros pre count Hl Hnd Hkeys Hcount; cbn [for_each].
  - exists count. split; [done|]. by rewrite app_nil_r.
  - rewrite Hl by left. cbn [mbind result_bind].
    destruct (for_each_incr (keys (closure_of self s)) count)
      as (count1 & -> & Hc1).
    { apply Hnd. left. }
    { intros a Ha. apply Hkeys in Ha as [_ Ha]; [|left].
      rewrite Hcount, decide_True by done. eauto. }
    cbn [mbind result_bind].
    destruct (IH (pre ++ [s]) count1) as (count' & Hrun & Hc').
    { intros; apply Hl; by right. }
    { intros; apply Hnd; by right. }
    { intros; apply Hkeys; by right. }
    { intros c. rewrite Hc1, Hcount, filter_app, filter_cons, filter_nil.
      pose proof (Hkeys s c ltac:(left)) as Hk.
      destruct (decide (c ∈ hypotheses)) as [Hc|Hc].
      - destruct (decide (c ∈ closure_of self s)) as [Hh|Hh].
        + rewrite decide_True by tauto. simpl. f_equal.
          rewrite length_app. simpl. lia.
        + rewrite decide_False by tauto. by rewrite app_nil_r.
      - rewrite decide_False by tauto. done. }
    exists count'. split; [done|]. intros c. rewrite Hc'.
    by rewrite <- app_assoc.
Qed.

Lemma len_members_with (X : gset string) (c : string) :
  len (members_with self X c) = counted c (elements X).
Proof.
  unfold len, members_with, filter, set_filter.
  rewrite size_list_to_set; [done|].
  apply NoDup_filter, NoDup_elements.
Qed.

Lemma lookup_count_map (X : gset string) (c : string) :
  count_map self X hypotheses !! c
  = if decide (c ∈ hypotheses) then Some (len (members_with self X c))
    else None.
Proof.
  unfold count_map. rewrite map_lookup_imap.
  destruct (decide (c ∈ hypotheses)) as [Hc|Hc].
  - by rewrite (proj2 (lookup_gset_to_gmap_Some () hypotheses c ()) (conj Hc eq_refl)).
  - by rewrite (proj2 (lookup_gset_to_gmap_None () hypotheses c) Hc).
Qed.

Lemma zero_counts (l : list string) (bc sc : gmap string Z) :
  foldl (λ '(bc, sc) c, (<[c := 0]> bc, <[c := 0]> sc)) (bc, sc) l
  = (foldl (λ g z, <[z := 0]> g) bc l, foldl (λ g z, <[z := 0]> g) sc l).
Proof.
  revert bc sc; induction l as [|c l IH]; intros bc sc; simpl; [done|].
  apply IH.
Qed.

Lemma zero_counts_lookup (c : string) :
  foldl (λ g z, <[z := 0]> g) (∅ : gmap string Z) (elements hypotheses) !! c
  = if decide (c ∈ hypotheses) then Some (counted c []) else None.
Proof.
  rewrite foldl_insert_lookup, lookup_empty.
  destruct (decide (c ∈ hypotheses)) as [Hc|Hc].
  - rewrite decide_True; [done|by apply elem_of_elements].
  - rewrite decide_False; [done|by rewrite elem_of_elements].
Qed.
End counting.

Lemma bind_filter {A : Type} (P : A → Prop) `{!∀ x, Decision (P x)}
    (l : list A) :
  l ≫= (λ x, if bool_decide (P x) then [x] else []) = filter P l.
Proof.
  induction l as [|x l IH]; [done|].
  rewrite bind_cons, filter_cons, IH.
  by destruct (decide (P x)); [rewrite bool_decide_eq_true_2|
                               rewrite bool_decide_eq_false_2].
Qed.

Lemma kept_loop (bg_count : gmap string Z) (count : string → Z)
    (l : list string) :
  (∀ c, c ∈ l → bg_count !! c = Some (count c)) →
  for_each l
    (λ kept x,
       n ← dict_get bg_count x;
       if bool_decide (n > 1) then mret (kept ++ [x]) else mret kept)
    []
  = inr (filter (λ c, count c > 1) l).
Proof.
  intros Hl. rewrite <- bind_filter.
  apply (for_each_append l _ (λ x, if bool_decide (count x > 1) then [x]
                                   else []) []).
  intros acc x Hx. rewrite (dict_get_Some _ _ _ (Hl x Hx)). simpl.
  destruct (bool_decide (count x > 1)); [done|by rewrite app_nil_r].
Qed.

Lemma sample_subseteq_background (self : AssociationSet)
    (sample : gset string) (background : option (list string)) :
  sample ⊆ effective_background self sample background.
Proof. unfold effective_background. set_solver. Qed.

(** The loops of the source compute the counts the specification words. *)
Lemma enrichment_counts_refines (self : AssociationSet)
    (subjects_arg : list string) (background : option (list string)) :
  lookups_ok self
    (effective_background self (list_to_set subjects_arg) background) →
  enrichment_counts self subjects_arg background
  = inr (counts_spec self subjects_arg background).
Proof.
  intros Hok. unfold enrichment_counts, counts_spec.
  set (sample := list_to_set subjects_arg : gset string) in *.
  set (bg := effective_background self sample background) in *.
  assert (lookups_ok self sample) as Hoks.
  { eapply lookups_ok_subseteq; [|exact Hok].
    apply sample_subseteq_background. }
  rewrite (all_hypotheses_spec self sample Hoks). cbn [mbind result_bind].
  set (hyps := hypotheses_of self sample).
  rewrite zero_counts.
  destruct (count_loop self hyps (λ ancs, elements (ancs ∩ hyps))
              (elements bg) []
              (foldl (λ g z, <[z := 0]> g) ∅ (elements hyps)))
    as (bc & Hbc_run & Hbc).
  { intros s Hs. apply Hok. by apply elem_of_elements. }
  { intros; apply NoDup_elements. }
  { intros s c _. rewrite elem_of_elements. set_solver. }
  { apply zero_counts_lookup. }
  destruct (count_loop self hyps elements (elements sample) []
              (foldl (λ g z, <[z := 0]> g) ∅ (elements hyps)))
    as (sc & Hsc_run & Hsc).
  { intros s Hs. apply Hoks. by apply elem_of_elements. }
  { intros; apply NoDup_elements. }
  { intros s c Hs. rewrite elem_of_elements.
    apply elem_of_elements in Hs. split; [|tauto].
    intros Hc. split; [done|]. apply elem_of_hypotheses_of. eauto. }
  { apply zero_counts_lookup. }
  cbv beta in Hbc_run, Hsc_run. rewrite Hbc_run. cbn [mbind result_bind].
  rewrite Hsc_run. cbn [mbind result_bind].
  assert (bc = count_map self bg hyps) as ->.
  { apply map_eq. intros c. rewrite Hbc, lookup_count_map.
    by rewrite len_members_with. }
  assert (sc = count_map self sample hyps) as ->.
  { apply map_eq. intros c. rewrite Hsc, lookup_count_map.
    by rewrite len_members_with. }
  rewrite (kept_loop _ (λ c, len (members_with self bg c))).
  - done.
  - intros c Hc. apply elem_of_elements in Hc.
    by rewrite lookup_count_map, decide_True.
Qed.

(** Conversely, the counts are only computed when every lookup returned. *)
Lemma enrichment_counts_inr (self : AssociationSet)
    (subjects_arg : list string) (background : option (list string)) ec :
  enrichment_counts self subjects_arg background = inr ec →
  lookups_ok self
    (effective_background self (list_to_set subjects_arg) background).
Proof.
  unfold enrichment_counts. intros H. inv_bind H.
  rewrite zero_counts in H. inv_bind H.
  by apply for_each_lookups_ok in Hx0.
Qed.

Lemma enrichment_counts_inv (self : AssociationSet)
    (subjects_arg : list string) (background : option (list string)) ec :
  enrichment_counts self subjects_arg background = inr ec →
  ec = counts_spec self subjects_arg background.
Proof.
  intros H. pose proof (enrichment_counts_inr _ _ _ _ H) as Hok.
  rewrite (enrichment_counts_refines _ _ _ Hok) in H. by injection H.
Qed.

(** ** Enrichment: the contingency table *)

Lemma members_with_subseteq (self : AssociationSet) (X : gset string) c :
  members_with self X c ⊆ X.
Proof. unfold members_with. intros s. rewrite elem_of_filter. tauto. Qed.

Lemma members_with_mono (self : AssociationSet) (X Y : gset string) c :
  X ⊆ Y → members_with self X c ⊆ members_with self Y c.
Proof.
  unfold members_with. intros HXY s. rewrite !elem_of_filter. set_solver.
Qed.

Lemma len_difference (X M : gset string) :
  M ⊆ X → len (X ∖ M) = len X - len M.
Proof.
  intros HM. unfold len. rewrite size_difference by done.
  apply subseteq_size in HM. lia.
Qed.

(** The four cells count subjects: sample members with / without the term,
    and the rest of the background with / without it. *)
Lemma cells_nonneg (self : AssociationSet) (sample bg : gset string) c :
  sample ⊆ bg →
  let a := len (members_with self sample c) in
  let n := len (members_with self bg c) in
  0 ≤ a ≤ n ∧ 0 ≤ len sample - a ∧ 0 ≤ n - a
  ∧ 0 ≤ (len bg - n) - (len sample - a).
Proof.
  intros Hsub a n.
  pose proof (members_with_subseteq self sample c) as Hs.
  pose proof (members_with_subseteq self bg c) as Hb.
  pose proof (members_with_mono self sample bg c Hsub) as Hm.
  assert (sample ∖ members_with self sample c ⊆ bg ∖ members_with self bg c)
    as Hd.
  { intros s. rewrite !elem_of_difference. unfold members_with.
    rewrite !elem_of_filter. set_solver. }
  apply subseteq_size in Hd as Hd'. apply inj_le in Hd'.
  fold (len (sample ∖ members_with self sample c)) in Hd'.
  fold (len (bg ∖ members_with self bg c)) in Hd'.
  rewrite !len_difference in Hd' by done.
  apply subseteq_size, inj_le in Hs, Hb, Hm.
  fold (len (members_with self sample c)) in Hs, Hm.
  fold (len (members_with self bg c)) in Hb, Hm.
  fold (len sample) in Hs. fold (len bg) in Hb.
  pose proof (len_nonneg (members_with self sample c)).
  subst a n. lia.
Qed.

Lemma elem_of_kept (self : AssociationSet) (subjects_arg : list string)
    (background : option (list string)) (c : string) :
  c ∈ ec_hypotheses (counts_spec self subjects_arg background)
  ↔ c ∈ hypotheses_of self (list_to_set subjects_arg)
    ∧ len (members_with self
             (effective_background self (list_to_set subjects_arg) background)
             c) > 1.
Proof.
  unfold counts_spec. cbn [ec_hypotheses].
  rewrite list_elem_of_filter, elem_of_elements. tauto.
Qed.

Lemma contingency_counts_spec (self : AssociationSet)
    (subjects_arg : list string) (background : option (list string)) cls :
  let sample : gset string := list_to_set subjects_arg in
  let bg := effective_background self sample background in
  let a := len (members_with self sample cls) in
  let n := len (members_with self bg cls) in
  cls ∈ hypotheses_of self sample →
  contingency (counts_spec self subjects_arg background) cls
  = inr (a, len sample - a, n - a, (len bg - n) - (len sample - a)).
Proof.
  intros sample bg a n Hcls. subst a n bg sample.
  unfold contingency, counts_spec.
  cbn [ec_sample_count ec_bg_count ec_sample_size ec_bg_size].
  rewrite !(dict_get_Some (count_map _ _ _) cls _ (eq_trans
              (lookup_count_map _ _ _ cls) (decide_True _ _ Hcls))).
  done.
Qed.

(** The table of a retained term is computed and has non-negative cells. *)
Lemma retained_cells (self : AssociationSet) (subjects_arg : list string)
    (background : option (list string)) (ec : EnrichmentCounts) (cls : string) :
  enrichment_counts self subjects_arg background = inr ec →
  cls ∈ ec_hypotheses ec →
  ∃ a b c d, contingency ec cls = inr (a, b, c, d)
             ∧ 0 ≤ a ∧ 0 ≤ b ∧ 0 ≤ c ∧ 0 ≤ d.
Proof.
  intros Hec Hcls. apply enrichment_counts_inv in Hec. subst ec.
  apply elem_of_kept in Hcls as [Hcls _].
  pose proof (contingency_counts_spec self subjects_arg background cls Hcls)
    as Hcont.
  pose proof (cells_nonneg self (list_to_set subjects_arg)
                (effective_background self (list_to_set subjects_arg)
                   background) cls
                (sample_subseteq_background self _ background))
    as (Ha & Hb & Hc & Hd).
  cbv zeta in Hcont, Ha, Hb, Hc, Hd.
  eexists _, _, _, _. split; [exact Hcont|]. repeat split; lia.
Qed.

(** C8: the counts are computed whenever the closure lookups return (always
    in lenient mode), and then, for every retained term, [a] is the sample
    count, at most the background count, and the four cells [a],
    [b = sample_size - a], [c = bg_count - a] and
    [d = (bg_size - bg_count) - b] are non-negative, the background being
    the given one (or all indexed subjects) extended with the sample. *)
Theorem contingency_cells_nonneg (self : AssociationSet)
    (subjects_arg : list string) (background : option (list string)) :
  let sample : gset string := list_to_set subjects_arg in
  let bg := effective_background self sample background in
  (strict self = false →
   ∃ ec, enrichment_counts self subjects_arg background = inr ec)
  ∧ ∀ ec cls,
      enrichment_counts self subjects_arg background = inr ec →
      cls ∈ ec_hypotheses ec →
      ∃ a b c d n,
        contingency ec cls = inr (a, b, c, d)
        ∧ ec_sample_count ec !! cls = Some a
        ∧ ec_bg_count ec !! cls = Some n
        ∧ a = len (members_with self sample cls)
        ∧ n = len (members_with self bg cls)
        ∧ ec_sample_size ec = len sample
        ∧ ec_bg_size ec = len bg
        ∧ b = ec_sample_size ec - a
        ∧ c = n - a
        ∧ d = (ec_bg_size ec - n) - b
        ∧ a ≤ n ∧ 0 ≤ a ∧ 0 ≤ b ∧ 0 ≤ c ∧ 0 ≤ d.
Proof.
  intros sample bg. split.
  { intros Hs. eexists. apply enrichment_counts_refines.
    by apply lookups_ok_lenient. }
  intros ec cls Hec Hcls. apply enrichment_counts_inv in Hec. subst ec.
  apply elem_of_kept in Hcls as [Hcls _].
  pose proof (contingency_counts_spec self subjects_arg background cls Hcls)
    as Hcont.
  pose proof (cells_nonneg self sample bg cls
                (sample_subseteq_background self sample background))
    as (Ha & Hb & Hc & Hd).
  cbv zeta in Hcont, Ha, Hb, Hc, Hd. fold sample bg in Hcont.
  eexists _, _, _, _, _. split; [exact Hcont|].
  unfold counts_spec. cbn [ec_sample_count ec_bg_count ec_sample_size
                           ec_bg_size].
  fold sample bg. rewrite !lookup_count_map, !decide_True by done.
  repeat split; try done; lia.
Qed.

Lemma contingency_cells_nonneg_witness :
  ∃ ec, enrichment_counts (scenario_set false) ["g1"; "g2"] None = inr ec
        ∧ "A" ∈ ec_hypotheses ec
        ∧ contingency ec "A" = inr (2, 0, 0, 1).
Proof.
  destruct (contingency_cells_nonneg (scenario_set false) ["g1"; "g2"] None)
    as [Hex Hcells].
  destruct (Hex eq_refl) as [ec Hec]. exists ec. split; [exact Hec|].
  assert (ec = counts_spec (scenario_set false) ["g1"; "g2"] None) as Heq
    by (by apply enrichment_counts_inv).
  assert ("A" ∈ ec_hypotheses ec) as HA by (rewrite Heq; compute_done).
  split; [exact HA|].
  destruct (Hcells ec "A" Hec HA)
    as (a & b & c & d & n & Hcont & _ & _ & -> & -> & Hss & Hbs & -> & -> & ->
        & _).
  rewrite Hcont, Hss, Hbs. vm_compute. reflexivity.
Defined.

(** ** Enrichment: correction, filtering and sorting *)

Lemma corrected_Qmin (p : Q) (n : Z) :
  (corrected p n == Qmin 1 (p * inject_Z n))%Q.
Proof.
  unfold corrected. destruct (Qlt_le_dec 1 (p * inject_Z n)) as [H|H].
  - symmetry. apply Q.min_l. by apply Qlt_le_weak.
  - symmetry. by apply Q.min_r.
Qed.

(** Bonferroni only inflates a p-value of [[0,1]]. *)
Lemma corrected_ge (p : Q) (n : Z) :
  (0 <= p <= 1)%Q → 1 ≤ n → (p <= corrected p n)%Q.
Proof.
  intros [H0 H1] Hn. unfold corrected.
  destruct (Qlt_le_dec 1 (p * inject_Z n)) as [H|H]; [done|].
  rewrite <- (Qmult_1_r p) at 1.
  rewrite !(Qmult_comm p). apply Qmult_le_compat_r; [|done].
  by apply (inject_Z_le 1 n).
Qed.

Lemma insert_by_p_perm (r : EnrichmentRecord) (l : list EnrichmentRecord) :
  insert_by_p r l ≡ₚ r :: l.
Proof.
  induction l as [|x l IH]; simpl; [done|].
  destruct (Qlt_le_dec (er_p x) (er_p r)); [|done].
  rewrite IH. apply Permutation_swap.
Qed.

Lemma sorted_by_p_perm (l : list EnrichmentRecord) : sorted_by_p l ≡ₚ l.
Proof.
  induction l as [|r l IH]; simpl; [done|].
  rewrite insert_by_p_perm. by rewrite IH.
Qed.

Lemma insert_by_p_sorted (r : EnrichmentRecord) (l : list EnrichmentRecord) :
  StronglySorted (λ r1 r2, (er_p r1 <= er_p r2)%Q) l →
  StronglySorted (λ r1 r2, (er_p r1 <= er_p r2)%Q) (insert_by_p r l).
Proof.
  induction 1 as [|x l Hl IH Hx]; simpl.
  - repeat constructor.
  - destruct (Qlt_le_dec (er_p x) (er_p r)) as [Hlt|Hle].
    + constructor; [done|].
      rewrite insert_by_p_perm. constructor; [by apply Qlt_le_weak|done].
    + constructor; [by constructor|]. constructor; [done|].
      eapply Forall_impl; [exact Hx|]. simpl. intros y Hy.
      by apply (Qle_trans _ (er_p x)).
Qed.

(** The result list is in ascending order of corrected p-value. *)
Lemma sorted_by_p_sorted (l : list EnrichmentRecord) :
  StronglySorted (λ r1 r2, (er_p r1 <= er_p r2)%Q) (sorted_by_p l).
Proof.
  induction l as [|r l IH]; simpl; [constructor|].
  by apply insert_by_p_sorted.
Qed.

Lemma enrichment_results_inv (fisher_exact : fisher_exact_t)
    (self : AssociationSet) (ec : EnrichmentCounts) (threshold : Q)
    (labels : bool) (dir : direction) (results : list EnrichmentRecord) :
  enrichment_results fisher_exact self ec threshold labels dir = inr results →
  ∀ r, r ∈ results → record_ok fisher_exact ec threshold dir r.
Proof.
  unfold enrichment_results. intros Hrun.
  refine (for_each_ind
            (λ _ res, ∀ r, r ∈ res → record_ok fisher_exact ec threshold dir r)
            _ _ _ _ _ _ Hrun).
  - intros r Hr. by apply elem_of_nil in Hr.
  - intros done cls res res' Hcls IH Hbody. inv_bind Hbody.
    destruct x as [[[a b] c] d].
    destruct (Qlt_le_dec _ threshold) as [Hlt|Hge].
    + assert (∀ n r, r ∈ res ++ [{| er_c := cls;
                 er_p := corrected (fisher_exact a b c d dir)
                           (ec_num_hypotheses ec);
                 er_p_uncorrected := fisher_exact a b c d dir;
                 er_n := n |}] →
                record_ok fisher_exact ec threshold dir r) as Hnew.
      { intros n r Hr. apply elem_of_app in Hr as [Hr|Hr]; [by apply IH|].
        apply list_elem_of_singleton in Hr. subst r.
        split; [done|]. split; [by exists a, b, c, d|]. done. }
      destruct labels.
      * inv_bind Hbody. injection Hbody as <-. apply Hnew.
      * injection Hbody as <-. apply Hnew.
    + injection Hbody as <-. exact IH.
Qed.

Lemma enrichment_results_total (fisher_exact : fisher_exact_t)
    (self : AssociationSet) (ec : EnrichmentCounts) (threshold : Q)
    (labels : bool) (dir : direction) :
  (∀ cls, cls ∈ ec_hypotheses ec → ∃ t, contingency ec cls = inr t) →
  (labels = true → is_Some (ontology self)) →
  ∃ results,
    enrichment_results fisher_exact self ec threshold labels dir = inr results.
Proof.
  intros Hcont Hlab. unfold enrichment_results.
  destruct (for_each_total (λ _, True) (ec_hypotheses ec)
    (λ results cls,
       '(a, b, c, d) ← contingency ec cls;
       let p_uncorrected := fisher_exact a b c d dir in
       let p := corrected p_uncorrected (ec_num_hypotheses ec) in
       if Qlt_le_dec p threshold then
         if labels then
           n ← ontology_label self cls;
           mret (results ++ [{| er_c := cls; er_p := p;
                                er_p_uncorrected := p_uncorrected;
                                er_n := Some n |}])
         else
           mret (results ++ [{| er_c := cls; er_p := p;
                                er_p_uncorrected := p_uncorrected;
                                er_n := None |}])
       else mret results)
    []) as (results & Hrun & _); [done| |by exists results].
  intros res cls Hcls _. destruct (Hcont cls Hcls) as [[[[a b] c] d] ->].
  cbn [mbind result_bind]. cbv zeta.
  destruct (Qlt_le_dec _ threshold); [|by eexists].
  destruct labels; [|by eexists].
  destruct (Hlab eq_refl) as [o Ho]. unfold ontology_label. rewrite Ho.
  by eexists.
Qed.

Lemma fisher_exact_reference_range (a b c d : Z) (dir : direction) :
  (0 <= fisher_exact_reference a b c d dir <= 1)%Q.
Proof.
  unfold fisher_exact_reference. split.
  - apply Q.min_glb; [done|]. unfold Qle. simpl. lia.
  - apply Q.le_min_l.
Qed.

(** C3: [enrichment_test] returns whenever the lookups do (lenient mode) and
    labels, if asked for, can be read; when it returns, the retained
    hypotheses are exactly the terms of the sample's closures whose
    background count exceeds 1 (a term with count at most 1 is discarded),
    [num_hypotheses] is the number of retained terms, and every returned
    record has [p = min(1, p_uncorrected * num_hypotheses)], hence
    [p >= p_uncorrected], the exact test giving p-values in [[0,1]] on tables
    of non-negative cells. *)
Theorem enrichment_bonferroni (fisher_exact : fisher_exact_t)
    (self : AssociationSet) (subjects_arg : list string)
    (background : option (list string)) (threshold : Q) (labels : bool)
    (dir : direction) :
  (∀ a b c d dir, 0 ≤ a → 0 ≤ b → 0 ≤ c → 0 ≤ d →
                  (0 <= fisher_exact a b c d dir <= 1)%Q) →
  let sample : gset string := list_to_set subjects_arg in
  let bg := effective_background self sample background in
  (strict self = false → (labels = true → is_Some (ontology self)) →
   ∃ results, enrichment_test fisher_exact self subjects_arg background
                threshold labels dir = inr results)
  ∧ ∀ results,
      enrichment_test fisher_exact self subjects_arg background
        threshold labels dir = inr results →
      ∃ ec, enrichment_counts self subjects_arg background = inr ec
        ∧ (∀ c, c ∈ ec_hypotheses ec
                ↔ c ∈ hypotheses_of self sample
                  ∧ len (members_with self bg c) > 1)
        ∧ (∀ c n, ec_bg_count ec !! c = Some n → n ≤ 1 →
                  c ∉ ec_hypotheses ec)
        ∧ NoDup (ec_hypotheses ec)
        ∧ ec_num_hypotheses ec = Z.of_nat (length (ec_hypotheses ec))
        ∧ ∀ r, r ∈ results →
            er_c r ∈ ec_hypotheses ec
            ∧ (er_p r == Qmin 1 (er_p_uncorrected r
                                 * inject_Z (ec_num_hypotheses ec)))%Q
            ∧ (er_p_uncorrected r <= er_p r)%Q.
Proof.
  intros Hfisher sample bg.
  assert (∀ ec cls, enrichment_counts self subjects_arg background = inr ec →
            cls ∈ ec_hypotheses ec →
            ∃ a b c d, contingency ec cls = inr (a, b, c, d)
                       ∧ 0 ≤ a ∧ 0 ≤ b ∧ 0 ≤ c ∧ 0 ≤ d) as Hcells.
  { intros ec cls. apply retained_cells. }
  split.
  - intros Hstrict Hlab. unfold enrichment_test.
    rewrite enrichment_counts_refines by (by apply lookups_ok_lenient).
    cbn [mbind result_bind].
    destruct (enrichment_results_total fisher_exact self
                (counts_spec self subjects_arg background)
                threshold labels dir) as [results ->]; [|done|by eexists].
    intros cls Hcls.
    destruct (Hcells (counts_spec self subjects_arg background) cls)
      as (a & b & c & d & -> & _); [|done|by eexists].
    apply enrichment_counts_refines. by apply lookups_ok_lenient.
  - intros results Hrun. unfold enrichment_test in Hrun.
    inv_bind Hrun. rename x into ec. inv_bind Hrun. rename x into res.
    injection Hrun as <-. exists ec. split; [done|].
    pose proof (enrichment_counts_inv _ _ _ _ Hx) as Heq.
    split; [rewrite Heq; apply elem_of_kept|].
    split.
    { intros c n Hn Hle Hc. rewrite Heq in Hn, Hc.
      apply elem_of_kept in Hc as [Hc Hgt].
      unfold counts_spec in Hn. cbn [ec_bg_count] in Hn.
      rewrite lookup_count_map, decide_True in Hn by done.
      injection Hn as <-. fold sample bg in Hle. fold sample bg in Hgt. lia. }
    split.
    { rewrite Heq. unfold counts_spec. cbn [ec_hypotheses].
      apply NoDup_filter, NoDup_elements. }
    split; [by rewrite Heq|].
    intros r Hr. rewrite sorted_by_p_perm in Hr.
    destruct (enrichment_results_inv _ _ _ _ _ _ _ Hx0 r Hr)
      as (Hc & (a & b & c & d & Hcont & Hpu) & Hp & _).
    split; [done|]. split; [rewrite Hp; apply corrected_Qmin|].
    rewrite Hp. apply corrected_ge.
    + destruct (Hcells ec (er_c r) Hx Hc)
        as (a' & b' & c' & d' & Hcont' & Ha & Hb & Hc' & Hd).
      rewrite Hcont in Hcont'. injection Hcont' as <- <- <- <-.
      rewrite Hpu. by apply Hfisher.
    + rewrite Heq in Hc |- *. unfold counts_spec in *.
      cbn [ec_hypotheses ec_num_hypotheses] in *.
      destruct (filter _ _); [by apply elem_of_nil in Hc|]. simpl. lia.
Qed.

Lemma enrichment_bonferroni_witness :
  (∀ a b c d dir, 0 ≤ a → 0 ≤ b → 0 ≤ c → 0 ≤ d →
                  (0 <= fisher_exact_reference a b c d dir <= 1)%Q)
  ∧ ∃ results,
      enrichment_test fisher_exact_reference (scenario_set false)
        ["g1"; "g2"] None 2 false greater = inr results
      ∧ ∀ r, r ∈ results → (er_p_uncorrected r <= er_p r)%Q.
Proof.
  assert (∀ a b c d dir, 0 ≤ a → 0 ≤ b → 0 ≤ c → 0 ≤ d →
            (0 <= fisher_exact_reference a b c d dir <= 1)%Q) as Hf
    by (intros; apply fisher_exact_reference_range).
  split; [exact Hf|].
  destruct (enrichment_bonferroni fisher_exact_reference (scenario_set false)
              ["g1"; "g2"] None 2 false greater Hf) as [Hex Hinv].
  destruct Hex as [results Hres]; [done|done|].
  exists results. split; [exact Hres|].
  destruct (Hinv results Hres) as (ec & _ & _ & _ & _ & _ & Hrec).
  intros r Hr. by apply Hrec.
Defined.

(** C9 (as the code has it): when the effective background (the given
    background, or all indexed subjects, extended with the sample) is
    empty, [enrichment_test] returns the empty list of records. *)
Theorem empty_background_returns_empty (fisher_exact : fisher_exact_t)
    (self : AssociationSet) (subjects_arg : list string)
    (background : option (list string)) (threshold : Q) (labels : bool)
    (dir : direction) :
  effective_background self (list_to_set subjects_arg) background = ∅ →
  enrichment_test fisher_exact self subjects_arg background threshold labels
    dir = inr [].
Proof.
  intros Hbg. unfold enrichment_test.
  rewrite enrichment_counts_refines.
  2: { rewrite Hbg. intros s Hs. by apply elem_of_empty in Hs. }
  cbn [mbind result_bind].
  assert (list_to_set subjects_arg = (∅ : gset string)) as Hsample.
  { pose proof (sample_subseteq_background self (list_to_set subjects_arg)
                  background) as Hsub.
    rewrite Hbg in Hsub. set_solver. }
  assert (ec_hypotheses (counts_spec self subjects_arg background) = [])
    as Hkept.
  { unfold counts_spec. cbn [ec_hypotheses]. rewrite Hsample.
    unfold hypotheses_of. by rewrite elements_empty. }
  unfold enrichment_results. by rewrite Hkept.
Qed.

Lemma empty_background_returns_empty_witness :
  effective_background empty_association_set (list_to_set []) (Some []) = ∅
  ∧ enrichment_test fisher_exact_reference empty_association_set [] (Some [])
      (1 # 20) true two_sided = inr [].
Proof.
  assert (effective_background empty_association_set (list_to_set [])
            (Some []) = ∅) as H by (by vm_compute).
  split; [exact H|]. by apply empty_background_returns_empty.
Defined.

(** C9 (the claim as stated fails): on the association set built from an
    empty dict, with no sample and no background, the effective background
    is empty and [enrichment_test] returns [[]]; it does not fail. *)
Lemma empty_background_does_not_fail :
  __init__ None [] = inr empty_association_set
  ∧ effective_background empty_association_set (list_to_set []) None = ∅
  ∧ enrichment_test fisher_exact_reference empty_association_set [] None
      (1 # 20) false greater = inr []
  ∧ ∀ e, enrichment_test fisher_exact_reference empty_association_set [] None
           (1 # 20) false greater ≠ inl e.
Proof.
  assert (enrichment_test fisher_exact_reference empty_association_set [] None
            (1 # 20) false greater = inr []) as H by (by vm_compute).
  split; [by vm_compute|]. split; [by vm_compute|]. split; [exact H|].
  intros e. by rewrite H.
Qed.

(** * Further properties of the code *)

(** ** Loops that raise *)

(** A loop whose steps either keep an invariant or raise [e], and one of
    whose elements always raises [e], raises [e]. *)
Lemma for_each_raises {A S : Type} (I : S → Prop) (e : exn) (xs : list A)
    (body : S → A → result S) (s : S) :
  I s →
  (∀ s x, x ∈ xs → I s →
          (∃ s', body s x = inr s' ∧ I s') ∨ body s x = inl e) →
  (∃ x, x ∈ xs ∧ ∀ s, I s → body s x = inl e) →
  for_each xs body s = inl e.
Proof.
  revert s; induction xs as [|y xs IH]; intros s Hs Hstep (x & Hx & Hfail).
  - by apply elem_of_nil in Hx.
  - cbn [for_each].
    destruct (Hstep s y) as [(s' & Hb & Hs')|Hb]; [left|done| |by rewrite Hb].
    rewrite Hb. cbn [mbind result_bind].
    apply elem_of_cons in Hx as [->|Hx].
    + rewrite (Hfail s Hs) in Hb. discriminate Hb.
    + apply IH; [done| |by exists x].
      intros s1 z Hz. apply Hstep. by right.
Qed.

(** A loop whose steps all return the state they got returns it. *)
Lemma for_each_fixed {A S : Type} (xs : list A) (body : S → A → result S)
    (s : S) :
  (∀ x, x ∈ xs → body s x = inr s) → for_each xs body s = inr s.
Proof.
  induction xs as [|y xs IH]; intros Hb; cbn [for_each]; [done|].
  rewrite Hb by left. cbn [mbind result_bind].
  apply IH. intros x Hx. apply Hb. by right.
Qed.

(** ** Indexing, continued *)

Lemma elem_of_reflexive_ancestors (o : Ontology) (terms : list string)
    (t : string) :
  t ∈ reflexive_ancestors o terms
  ↔ t ∈ terms ∨ ∃ term, term ∈ terms ∧ t ∈ ancestors o term.
Proof.
  unfold reflexive_ancestors.
  rewrite elem_of_union, elem_of_union_list, elem_of_list_to_set. split.
  - intros [(X & HX & Ht)|Ht]; [right|by left].
    apply list_elem_of_fmap in HX as (term & -> & Hterm). eauto.
  - intros [Ht|(term & Hterm & Ht)]; [by right|left].
    exists (ancestors o term). split; [|done].
    apply list_elem_of_fmap. eauto.
Qed.

(** X1: with an ontology, [termset_ancestors] returns the set that holds a
    term exactly when it is one of the given terms or an ancestor, by the
    ontology, of one of them; the ancestors are looked up once per given
    term, not transitively. *)
Theorem termset_ancestors_elem (self : AssociationSet) (o : Ontology)
    (terms : list string) :
  ontology self = Some o →
  ∃ ancs, termset_ancestors self terms = inr ancs
    ∧ ∀ t, t ∈ ancs
           ↔ t ∈ terms ∨ ∃ term, term ∈ terms ∧ t ∈ ancestors o term.
Proof.
  intros Ho. exists (reflexive_ancestors o terms).
  split; [by apply termset_ancestors_Some|].
  apply elem_of_reflexive_ancestors.
Qed.

Lemma termset_ancestors_elem_witness :
  ontology (scenario_set false) = Some scenario_ontology
  ∧ ∃ ancs, termset_ancestors (scenario_set false) ["A"] = inr ancs
      ∧ ("C" ∈ ancs ∧ "A" ∈ ancs ∧ "D" ∉ ancs).
Proof.
  split; [reflexivity|].
  destruct (termset_ancestors_elem (scenario_set false) scenario_ontology
              ["A"] eq_refl) as (ancs & Hrun & Helem).
  exists ancs. split; [exact Hrun|]. rewrite !Helem.
  split; [|split].
  - right. exists "A". split; [left|]. compute_done.
  - left. left.
  - intros [H|(term & Hterm & H)].
    + by apply list_elem_of_singleton in H.
    + apply list_elem_of_singleton in Hterm. subst term. revert H.
      compute_done.
Defined.

Lemma termset_ancestors_None (self : AssociationSet) (terms : list string) :
  ontology self = None →
  termset_ancestors self terms
  = match terms with [] => inr ∅ | _ :: _ => inl AttributeError end.
Proof.
  intros Ho. unfold termset_ancestors. destruct terms as [|t terms].
  - cbn [for_each mbind result_bind mret result_ret]. f_equal; set_solver.
  - cbn [for_each].
    assert (ontology_ancestors self t = inl AttributeError) as ->
      by (unfold ontology_ancestors; by rewrite Ho).
    done.
Qed.

(** X2: without an ontology (the constructor's default [None]),
    construction raises [AttributeError] as soon as one subject of the dict
    has a direct term; when no subject has any, it succeeds, indexes every
    subject and gives each the empty closure. *)
Theorem init_without_ontology (am : list (string * list string)) :
  ((∃ s terms, (s, terms) ∈ am ∧ terms ≠ []) →
   __init__ None am = inl AttributeError)
  ∧ ((∀ s terms, (s, terms) ∈ am → terms = []) →
     ∃ self, __init__ None am = inr self
       ∧ subjects self = am.*1
       ∧ ∀ s, s ∈ am.*1 → subject_to_inferred_map self !! s = Some ∅).
Proof.
  split.
  - intros (s & terms & Hin & Hne). unfold __init__, index.
    cbn [association_map].
    apply (for_each_raises (λ st, ontology st = None)); [done| |].
    + intros st [subj ts] _ Hst. rewrite (termset_ancestors_None st ts Hst).
      destruct ts; [left|by right]. eexists. by split.
    + exists (s, terms). split; [done|]. intros st Hst.
      rewrite (termset_ancestors_None st terms Hst). by destruct terms.
  - intros Hall.
    destruct (for_each_total
                (λ st, ontology st = None ∧ subjects st = am.*1
                       ∧ ∀ s ancs, subject_to_inferred_map st !! s = Some ancs
                                   → ancs = ∅)
                am
                (λ self '(subj, terms),
                   ancs ← termset_ancestors self terms;
                   mret (set_inferred subj ancs self))
                (set_subjects am.*1
                   {| ontology := None; association_map := am;
                      subject_to_inferred_map := ∅; subjects := [];
                      strict := false |}))
      as (self & Hrun & _ & Hsubj & Hempty).
    + split; [done|]. split; [done|]. intros s ancs Hlk.
      simpl in Hlk. by rewrite lookup_empty in Hlk.
    + intros st [subj ts] Hin (Ho & Hsu & Hem).
      rewrite (Hall subj ts Hin), (termset_ancestors_None st [] Ho).
      eexists. split; [done|]. split; [done|]. split; [done|].
      intros s ancs. cbn [set_inferred subject_to_inferred_map].
      destruct (decide (subj = s)) as [->|Hne].
      * rewrite lookup_insert_eq. by intros [= <-].
      * rewrite lookup_insert_ne by done. apply Hem.
    + exists self. split; [exact Hrun|]. split; [done|].
      intros s Hs. destruct (init_indexed None am self s Hrun) as [ancs Hlk].
      { by rewrite Hsubj. }
      by rewrite Hlk, (Hempty s ancs Hlk).
Qed.

Lemma init_without_ontology_witness :
  __init__ None scenario_map = inl AttributeError
  ∧ ∃ self, __init__ None [("g1", []); ("g2", [])] = inr self
      ∧ subjects self = ["g1"; "g2"].
Proof.
  split.
  - apply (proj1 (init_without_ontology scenario_map)).
    exists "g1", ["A"]. split; [left|done].
  - destruct (proj2 (init_without_ontology [("g1", []); ("g2", [])]))
      as (self & Hrun & Hsubj & _).
    + intros s terms Hin. apply elem_of_cons in Hin as [[= _ ->]|Hin]; [done|].
      apply list_elem_of_singleton in Hin. by injection Hin as _ ->.
    + exists self. by split.
Defined.

(** X3: after construction with an ontology, a subject has a stored closure
    exactly when it is a key of the dict, and the closure of a key is the set
    of its direct terms and of their ancestors. *)
Theorem init_closures (o : Ontology) (am : list (string * list string))
    (self : AssociationSet) :
  NoDup am.*1 →
  __init__ (Some o) am = inr self →
  (∀ s terms, (s, terms) ∈ am →
     subject_to_inferred_map self !! s = Some (reflexive_ancestors o terms))
  ∧ (∀ s, s ∉ am.*1 → subject_to_inferred_map self !! s = None)
  ∧ (∀ s, is_Some (subject_to_inferred_map self !! s) ↔ s ∈ subjects self).
Proof.
  intros Hnd Hinit.
  pose proof (init_fields _ _ _ Hinit) as (Ho & _ & Hsubj & _).
  assert (∀ s, s ∉ am.*1 → subject_to_inferred_map self !! s = None) as Hout.
  { intros s Hs. apply index_spec in Hinit.
    destruct Hinit as [_ _ _ _ Hold _ _]. simpl in Hold.
    by rewrite Hold. }
  split; [|split; [exact Hout|]].
  - intros s terms Hin.
    destruct (init_lookup _ _ _ _ _ Hnd Hinit Hin) as (ancs & Hlk & Hta).
    rewrite (termset_ancestors_Some self o terms Ho) in Hta.
    injection Hta as <-. exact Hlk.
  - intros s. rewrite Hsubj. split.
    + intros Hsome. destruct (decide (s ∈ am.*1)) as [|Hn]; [done|].
      rewrite (Hout s Hn) in Hsome. by destruct Hsome.
    + intros Hs. apply (init_indexed _ _ _ _ Hinit). by rewrite Hsubj.
Qed.

Lemma init_closures_witness :
  NoDup scenario_map.*1
  ∧ __init__ (Some scenario_ontology) scenario_map = inr (scenario_set false)
  ∧ subject_to_inferred_map (scenario_set false) !! "g3"
    = Some (reflexive_ancestors scenario_ontology ["B"])
  ∧ subject_to_inferred_map (scenario_set false) !! "g4" = None.
Proof.
  assert (NoDup scenario_map.*1) as Hnd by compute_done.
  assert (__init__ (Some scenario_ontology) scenario_map
          = inr (scenario_set false)) as Hinit by (vm_compute; reflexivity).
  destruct (init_closures scenario_ontology scenario_map (scenario_set false)
              Hnd Hinit) as (Hin & Hout & _).
  split; [exact Hnd|]. split; [exact Hinit|]. split.
  - apply Hin. compute_done.
  - apply Hout. compute_done.
Defined.

Lemma set_inferred_id (self : AssociationSet) (s : string) (ancs : gset string) :
  subject_to_inferred_map self !! s = Some ancs →
  set_inferred s ancs self = self.
Proof.
  intros Hlk. destruct self as [o am m su st]. unfold set_inferred. simpl in *.
  by rewrite insert_id.
Qed.

(** X4: indexing again a constructed association set whose dict and ontology
    did not change returns it unchanged, whatever [strict] is. *)
Theorem index_idempotent (self : AssociationSet) :
  constructed self → index self = inr self.
Proof.
  intros [o am self0 b Hnd Hinit].
  pose proof (init_fields _ _ _ Hinit) as (Ho & Ham & Hsubj & _).
  unfold index.
  assert (set_subjects (association_map (set_strict b self0)).*1
            (set_strict b self0) = set_strict b self0) as ->.
  { destruct self0 as [o0 am0 m su st]. unfold set_subjects, set_strict.
    simpl in *. by rewrite Ham, Hsubj. }
  apply for_each_fixed. intros [s terms] Hin.
  cbn [set_strict association_map] in Hin. rewrite Ham in Hin.
  destruct (init_lookup _ _ _ _ _ Hnd Hinit Hin) as (ancs & Hlk & Hta).
  rewrite (termset_ancestors_ontology (set_strict b self0) self0) by done.
  rewrite Hta. cbn [mbind result_bind mret result_ret]. f_equal.
  by apply set_inferred_id.
Qed.

Lemma index_idempotent_witness :
  constructed (scenario_set true)
  ∧ index (scenario_set true) = inr (scenario_set true).
Proof.
  split; [apply constructed_scenario|].
  apply index_idempotent, constructed_scenario.
Defined.

(** X5: [index] never removes a stored closure: after the dict is replaced
    and [index] is run again, [subjects] lists the keys of the new dict
    only, but a subject that is no longer a key keeps the closure stored
    before, and its lookup answers as before. *)
Theorem reindex_keeps_stale (self self' : AssociationSet)
    (am : list (string * list string)) :
  index (set_association_map am self) = inr self' →
  subjects self' = am.*1
  ∧ ∀ s, s ∉ am.*1 →
      subject_to_inferred_map self' !! s = subject_to_inferred_map self !! s
      ∧ inferred_types self' s = inferred_types self s.
Proof.
  intros Hrun. apply index_spec in Hrun.
  destruct Hrun as [_ _ Hsubj Hstrict Hold _ _].
  cbn [set_association_map set_subjects association_map subjects strict
       subject_to_inferred_map] in *.
  split; [done|]. intros s Hs. pose proof (Hold s Hs) as Hlk.
  split; [done|]. unfold inferred_types. by rewrite Hlk, Hstrict.
Qed.

Lemma reindex_keeps_stale_witness :
  ∃ self', index (set_association_map [("g1", ["C"])] (scenario_set false))
           = inr self'
    ∧ subjects self' = ["g1"]
    ∧ inferred_types self' "g3" = inr {["B"; "C"]}.
Proof.
  destruct (index_total (set_association_map [("g1", ["C"])]
                           (scenario_set false))) as [self' Hrun].
  { by eexists. }
  exists self'. split; [exact Hrun|].
  destruct (reindex_keeps_stale _ _ _ Hrun) as [Hsubj Hold].
  split; [exact Hsubj|].
  destruct (Hold "g3") as [_ ->]; [compute_done|]. by vm_compute.
Defined.

(** ** Boolean queries, continued *)

Lemma filter_ext_elem {A : Type} (P Q : A → Prop)
    `{!∀ x, Decision (P x)} `{!∀ x, Decision (Q x)} (l : list A) :
  (∀ x, x ∈ l → P x ↔ Q x) → filter P l = filter Q l.
Proof.
  induction l as [|x l IH]; intros Hext; [done|].
  rewrite !filter_cons.
  assert (filter P l = filter Q l) as ->
    by (apply IH; intros y Hy; apply Hext; by right).
  destruct (decide (P x)) as [HP|HP].
  - rewrite decide_True; [done|]. by apply (Hext x); [left|].
  - rewrite decide_False; [done|]. intros HQ. apply HP.
    by apply (Hext x); [left|].
Qed.

Lemma filter_none {A : Type} (P : A → Prop) `{!∀ x, Decision (P x)}
    (l : list A) :
  (∀ x, x ∈ l → ¬ P x) → filter P l = [].
Proof.
  induction l as [|x l IH]; intros Hnone; [done|].
  rewrite filter_cons, decide_False by (apply Hnone; left).
  apply IH. intros y Hy. apply Hnone. by right.
Qed.

Lemma constructed_lookups (self : AssociationSet) :
  constructed self →
  ∀ s, s ∈ subjects self → inferred_types self s = inr (closure_of self s).
Proof. intros Hc s Hs. by apply inferred_types_constructed. Qed.

(** X6: a query whose include and exclude lists share a term returns no
    subject. *)
Theorem query_contradiction (self : AssociationSet)
    (include exclude : list string) (t : string) :
  constructed self → t ∈ include → t ∈ exclude →
  query self include exclude = inr [].
Proof.
  intros Hc Hi He. rewrite query_filter by (by apply constructed_lookups).
  f_equal. apply filter_none. intros s _. rewrite matches_iff.
  intros [Hinc Hexc]. by apply (Hexc t He), Hinc.
Qed.

Lemma query_contradiction_witness :
  constructed (scenario_set false)
  ∧ "B" ∈ ["A"; "B"] ∧ "B" ∈ ["B"]
  ∧ query (scenario_set false) ["A"; "B"] ["B"] = inr [].
Proof.
  split; [apply constructed_scenario|].
  assert ("B" ∈ ["A"; "B"]) as H1 by compute_done.
  assert ("B" ∈ ["B"]) as H2 by compute_done.
  split; [exact H1|]. split; [exact H2|].
  apply (query_contradiction (scenario_set false) ["A"; "B"] ["B"] "B"
           (constructed_scenario false) H1 H2).
Defined.

(** X7: queries compose by conjunction: querying with the include lists and
    the exclude lists of two queries put together returns the results of the
    first query that the second one returns too, in index order. *)
Theorem query_conjunction (self : AssociationSet)
    (include1 include2 exclude1 exclude2 : list string) :
  constructed self →
  ∃ l1 l2,
    query self include1 exclude1 = inr l1
    ∧ query self include2 exclude2 = inr l2
    ∧ query self (include1 ++ include2) (exclude1 ++ exclude2)
      = inr (filter (λ s, s ∈ l2) l1).
Proof.
  intros Hc. pose proof (constructed_lookups self Hc) as Hl.
  eexists _, _. split; [by apply query_filter|].
  split; [by apply query_filter|].
  rewrite query_filter by done. f_equal.
  rewrite list_filter_filter. apply filter_ext_elem. intros s Hs.
  rewrite list_elem_of_filter, !matches_iff.
  setoid_rewrite elem_of_app. naive_solver.
Qed.

Lemma query_conjunction_witness :
  constructed (scenario_set false)
  ∧ query (scenario_set false) (["B"] ++ ["C"]) ([] ++ ["A"]) = inr ["g3"].
Proof.
  split; [apply constructed_scenario|].
  destruct (query_conjunction (scenario_set false) ["B"] ["C"] [] ["A"]
              (constructed_scenario false)) as (l1 & l2 & H1 & H2 & ->).
  assert (l1 = ["g1"; "g2"; "g3"]) as ->.
  { assert (query (scenario_set false) ["B"] [] = inr ["g1"; "g2"; "g3"])
      as H by (by vm_compute).
    rewrite H in H1. by injection H1. }
  assert (l2 = ["g3"]) as ->.
  { assert (query (scenario_set false) ["C"] ["A"] = inr ["g3"])
      as H by (by vm_compute).
    rewrite H in H2. by injection H2. }
  by vm_compute.
Defined.

Lemma constructed_subjects_NoDup (self : AssociationSet) :
  constructed self → NoDup (subjects self).
Proof.
  intros [o am self0 b Hnd Hinit].
  pose proof (init_fields _ _ _ Hinit) as (_ & _ & Hsubj & _).
  cbn [set_strict subjects]. by rewrite Hsubj.
Qed.

Lemma query_NoDup (self : AssociationSet) (include exclude : list string) :
  constructed self →
  ∃ l, query self include exclude = inr l ∧ NoDup l.
Proof.
  intros Hc. eexists. split.
  { apply query_filter. by apply constructed_lookups. }
  by apply NoDup_filter, constructed_subjects_NoDup.
Qed.

(** X8: the result of a query lists subjects of the index only, in index
    order, each once. *)
Theorem query_sublist (self : AssociationSet)
    (include exclude : list string) :
  constructed self →
  ∃ l, query self include exclude = inr l
    ∧ l `sublist_of` subjects self ∧ NoDup l.
Proof.
  intros Hc. eexists. split.
  { apply query_filter. by apply constructed_lookups. }
  split; [apply sublist_filter|].
  by apply NoDup_filter, constructed_subjects_NoDup.
Qed.

Lemma query_sublist_witness :
  constructed (scenario_set true)
  ∧ ∃ l, query (scenario_set true) ["A"] [] = inr l
      ∧ l `sublist_of` subjects (scenario_set true) ∧ NoDup l.
Proof.
  split; [apply constructed_scenario|].
  apply query_sublist, constructed_scenario.
Defined.

(** ** Jaccard similarity, continued *)

Lemma inferred_types_inl (self : AssociationSet) (s : string) (e : exn) :
  inferred_types self s = inl e →
  e = TypeError ∧ strict self = true
  ∧ subject_to_inferred_map self !! s = None.
Proof.
  unfold inferred_types.
  destruct (subject_to_inferred_map self !! s); [discriminate|].
  destruct (strict self); [|discriminate]. by intros [= <-].
Qed.

Lemma Qdiv_eq (a b c : Z) :
  0 < b → (inject_Z a / inject_Z b == inject_Z c)%Q ↔ a = c * b.
Proof.
  intros Hb. assert (¬ (inject_Z b == 0)%Q) as Hnz.
  { intros H. apply inject_Z_pos in Hb. rewrite H in Hb.
    by apply Qlt_irrefl in Hb. }
  rewrite <- (Qmult_inj_r _ _ (inject_Z b) Hnz).
  rewrite (Qmult_comm (inject_Z a / inject_Z b)), Qmult_div_r by done.
  rewrite <- inject_Z_mult. apply inject_Z_injective.
Qed.

(** X9: [jaccard_similarity] is symmetric in its two subjects, in lenient
    and in strict mode alike (when a lookup raises, it raises for both
    orders). *)
Theorem jaccard_similarity_sym (self : AssociationSet) (s1 s2 : string) :
  jaccard_similarity self s1 s2 = jaccard_similarity self s2 s1.
Proof.
  unfold jaccard_similarity.
  destruct (inferred_types self s1) as [e1|a1] eqn:H1;
    destruct (inferred_types self s2) as [e2|a2] eqn:H2;
    cbn [mbind result_bind].
  - apply inferred_types_inl in H1 as [-> _].
    by apply inferred_types_inl in H2 as [-> _].
  - done.
  - done.
  - by rewrite (union_comm_L a2 a1), (intersection_comm_L a2 a1).
Qed.

(** X10: when both lookups return, the index is 1 exactly when the two
    closures are equal and not empty, and 0 exactly when they share no
    term. *)
Theorem jaccard_similarity_extremes (self : AssociationSet) (s1 s2 : string) :
  (strict self = true →
   is_Some (subject_to_inferred_map self !! s1)
   ∧ is_Some (subject_to_inferred_map self !! s2)) →
  let c1 := closure_of self s1 in
  let c2 := closure_of self s2 in
  ∃ q, jaccard_similarity self s1 s2 = inr q
    ∧ ((q == 1)%Q ↔ c1 = c2 ∧ c1 ≠ ∅)
    ∧ ((q == 0)%Q ↔ c1 ## c2).
Proof.
  intros Hstrict c1 c2.
  assert (inferred_types self s1 = inr c1 ∧ inferred_types self s2 = inr c2)
    as [H1 H2].
  { destruct (strict self) eqn:Hs.
    - destruct Hstrict as [? ?]; [done|].
      split; by apply inferred_types_present.
    - split; by apply inferred_types_lenient. }
  unfold jaccard_similarity. rewrite H1, H2. cbn [mbind result_bind].
  case_bool_decide as Hz.
  - apply len_zero in Hz. exists 0%Q. split; [done|]. split.
    + split; [intros H; discriminate H|]. intros [_ Hne]. exfalso.
      apply Hne. fold c1 c2 in Hz. set_solver.
    + split; [|done]. intros _. fold c1 c2 in Hz. set_solver.
  - assert (c1 ∪ c2 ≠ ∅) as Hne by (by rewrite <- len_zero).
    pose proof (len_pos _ Hne) as Hpos.
    eexists. split; [done|]. split.
    + change 1%Q with (inject_Z 1). rewrite Qdiv_eq by done.
      rewrite Z.mul_1_l. unfold len. rewrite Nat2Z.inj_iff. split.
      * intros Hsize. assert (c1 ∩ c2 = c1 ∪ c2) as Heq.
        { apply set_subseteq_size_eq; [set_solver|lia]. }
        split; [set_solver|]. intros ->. apply Hne. set_solver.
      * intros [-> _]. by rewrite intersection_idemp_L, union_idemp_L.
    + change 0%Q with (inject_Z 0). rewrite Qdiv_eq by done.
      rewrite Z.mul_0_l, len_zero. by rewrite disjoint_intersection_L.
Qed.

Lemma jaccard_similarity_extremes_witness :
  (strict (scenario_set true) = true →
   is_Some (subject_to_inferred_map (scenario_set true) !! "g1")
   ∧ is_Some (subject_to_inferred_map (scenario_set true) !! "g2"))
  ∧ ∃ q, jaccard_similarity (scenario_set true) "g1" "g2" = inr q
         ∧ (q == 1)%Q.
Proof.
  assert (strict (scenario_set true) = true →
          is_Some (subject_to_inferred_map (scenario_set true) !! "g1")
          ∧ is_Some (subject_to_inferred_map (scenario_set true) !! "g2"))
    as H by (intros _; split; compute_done).
  split; [exact H|].
  destruct (jaccard_similarity_extremes (scenario_set true) "g1" "g2" H)
    as (q & Hq & H1 & _).
  exists q. split; [exact Hq|]. apply H1. split; [|compute_done].
  by vm_compute.
Defined.

(** X11: a subject without a stored closure makes [jaccard_similarity]
    raise [TypeError] in strict mode, and evaluate to 0 in lenient mode. *)
Theorem jaccard_similarity_unknown (self : AssociationSet) (s1 s2 : string) :
  subject_to_inferred_map self !! s1 = None
  ∨ subject_to_inferred_map self !! s2 = None →
  if strict self then jaccard_similarity self s1 s2 = inl TypeError
  else ∃ q, jaccard_similarity self s1 s2 = inr q ∧ (q == 0)%Q.
Proof.
  intros Hnone. destruct (strict self) eqn:Hs.
  - unfold jaccard_similarity. destruct Hnone as [H|H].
    + by rewrite (inferred_types_strict_absent self s1 Hs H).
    + rewrite (inferred_types_strict_absent self s2 Hs H).
      destruct (inferred_types self s1) as [e|a1] eqn:H1; [|done].
      by apply inferred_types_inl in H1 as [-> _].
  - unfold jaccard_similarity.
    rewrite !inferred_types_lenient by done. cbn [mbind result_bind].
    assert (closure_of self s1 ∩ closure_of self s2 = ∅) as ->.
    { unfold closure_of. destruct Hnone as [-> | ->]; simpl; set_solver. }
    case_bool_decide as Hz; [by exists 0%Q|].
    eexists. split; [done|]. change 0%Q with (inject_Z 0).
    apply Qdiv_eq; [|by rewrite len_zero].
    apply len_pos. intros Hempty. apply Hz. by rewrite Hempty.
Qed.

Lemma jaccard_similarity_unknown_witness :
  (subject_to_inferred_map (scenario_set true) !! "g9" = None
   ∨ subject_to_inferred_map (scenario_set true) !! "g1" = None)
  ∧ jaccard_similarity (scenario_set true) "g9" "g1" = inl TypeError.
Proof.
  assert (subject_to_inferred_map (scenario_set true) !! "g9" = None
          ∨ subject_to_inferred_map (scenario_set true) !! "g1" = None)
    as H by (left; by vm_compute).
  split; [exact H|].
  apply (jaccard_similarity_unknown (scenario_set true) "g9" "g1" H).
Defined.

(** ** Pairwise intersections, continued *)

(** X12: the [shared] set of a record for [x] and [y] holds the subjects that
    [query] returns for the include list [[x; y]], and [c] is their
    number. *)
Theorem intersections_shared_query (self : AssociationSet)
    (x_terms y_terms : list string) :
  constructed self →
  ∃ ilist, query_intersections self x_terms y_terms = inr ilist
    ∧ ∀ r, r ∈ ilist →
        ∃ l, query self [ir_x r; ir_y r] [] = inr l
          ∧ ir_shared r = list_to_set l
          ∧ ir_c r = Z.of_nat (length l).
Proof.
  intros Hc. pose proof (constructed_lookups self Hc) as Hl.
  exists (intersection_pairs self x_terms).
  split; [by apply query_intersections_pairs|].
  intros r Hr. apply elem_of_intersection_pairs in Hr
    as (x & y & _ & _ & _ & ->). cbn [intersection_record ir_x ir_y ir_shared
                                      ir_c].
  destruct (query_NoDup self [x; y] [] Hc) as (l & Hq & Hnd).
  exists l. split; [exact Hq|].
  assert (subjects_of self x ∩ subjects_of self y = list_to_set l) as Heq.
  { rewrite query_filter in Hq by done. injection Hq as <-.
    apply set_eq. intros s.
    rewrite elem_of_intersection, !elem_of_subjects_of, elem_of_list_to_set,
      list_elem_of_filter.
    unfold matches. set_solver. }
  split; [exact Heq|]. rewrite Heq. unfold len.
  by rewrite size_list_to_set.
Qed.

Lemma intersections_shared_query_witness :
  constructed (scenario_set false)
  ∧ ∃ ilist, query_intersections (scenario_set false) ["A"; "B"] [] = inr ilist
    ∧ ∀ r, r ∈ ilist →
        ∃ l, query (scenario_set false) [ir_x r; ir_y r] [] = inr l
          ∧ ir_shared r = list_to_set l
          ∧ ir_c r = Z.of_nat (length l).
Proof.
  split; [apply constructed_scenario|].
  apply intersections_shared_query, constructed_scenario.
Defined.

Lemma ltb_trichotomy (x y : string) :
  x ≠ y →
  (String.ltb x y = true ∧ String.ltb y x = false)
  ∨ (String.ltb x y = false ∧ String.ltb y x = true).
Proof.
  intros Hne. unfold String.ltb. rewrite (String.compare_antisym x y).
  destruct (String.compare y x) eqn:Hcmp; simpl; [|by right|by left].
  apply String.compare_eq_iff in Hcmp. congruence.
Qed.

Lemma length_bind_app {A B : Type} (f g : A → list B) (l : list A) :
  length (l ≫= (λ x, f x ++ g x)) = (length (l ≫= f) + length (l ≫= g))%nat.
Proof.
  induction l as [|x l IH]; [done|].
  rewrite !bind_cons, !length_app, IH. lia.
Qed.

Lemma length_bind_if {A B : Type} (p : A → bool) (f : A → B) (l : list A) :
  length (l ≫= (λ x, if p x then [f x] else []))
  = length (filter (λ x, p x = true) l).
Proof.
  induction l as [|x l IH]; [done|].
  rewrite bind_cons, filter_cons, length_app, IH.
  destruct (p x) eqn:Hp.
  - by rewrite decide_True.
  - by rewrite decide_False.
Qed.

Lemma length_filter_split {A : Type} (P Q : A → Prop)
    `{!∀ x, Decision (P x)} `{!∀ x, Decision (Q x)} (l : list A) :
  (∀ x, x ∈ l → (P x ∧ ¬ Q x) ∨ (¬ P x ∧ Q x)) →
  (length (filter P l) + length (filter Q l))%nat = length l.
Proof.
  induction l as [|x l IH]; intros Hsplit; [done|].
  rewrite !filter_cons.
  assert ((length (filter P l) + length (filter Q l))%nat = length l) as Hl
    by (apply IH; intros y Hy; apply Hsplit; by right).
  destruct (Hsplit x) as [[HP HQ]|[HP HQ]]; [left| |].
  - rewrite decide_True, decide_False by done. simpl. lia.
  - rewrite decide_False, decide_True by done. simpl. lia.
Qed.

Lemma intersection_pairs_cons_length (self : AssociationSet) (a : string)
    (xs : list string) :
  a ∉ xs →
  length (intersection_pairs self (a :: xs))
  = (length xs + length (intersection_pairs self xs))%nat.
Proof.
  intros Ha. unfold intersection_pairs.
  rewrite bind_cons, length_app, !bind_cons, ltb_irrefl, app_nil_l.
  rewrite (length_bind_if (String.ltb a) (intersection_record self a)).
  assert (∀ x, (a :: xs) ≫= (λ y, if String.ltb x y
                                  then [intersection_record self x y] else [])
               = (if String.ltb x a then [intersection_record self x a]
                  else [])
                 ++ xs ≫= (λ y, if String.ltb x y
                                then [intersection_record self x y] else []))
    as Hcons by (intros; by rewrite bind_cons).
  rewrite (list_bind_ext _ _ xs xs Hcons eq_refl).
  rewrite (length_bind_app
             (λ x, if String.ltb x a then [intersection_record self x a]
                   else [])).
  rewrite (length_bind_if (λ x, String.ltb x a)
             (λ x, intersection_record self x a)).
  pose proof (length_filter_split (λ y, String.ltb a y = true)
                (λ y, String.ltb y a = true) xs) as Hsplit.
  rewrite <- Hsplit; [lia|].
  intros y Hy. destruct (ltb_trichotomy a y) as [[H1 H2]|[H1 H2]].
  - intros ->. by apply Ha.
  - left. by rewrite H1, H2.
  - right. by rewrite H1, H2.
Qed.

(** X13: when no term is listed twice in [x_terms], [query_intersections]
    returns one record for each of the [n (n - 1) / 2] pairs of terms; so
    fewer than two terms give no record. *)
Theorem intersections_length (self : AssociationSet)
    (x_terms y_terms : list string) :
  constructed self → NoDup x_terms →
  ∃ ilist, query_intersections self x_terms y_terms = inr ilist
    ∧ (2 * length ilist = length x_terms * (length x_terms - 1))%nat.
Proof.
  intros Hc Hnd. exists (intersection_pairs self x_terms). split.
  { apply query_intersections_pairs. by apply constructed_lookups. }
  induction Hnd as [|a xs Ha Hnd IH]; [done|].
  rewrite intersection_pairs_cons_length by done.
  cbn [length]. nia.
Qed.

Lemma intersections_length_witness :
  constructed (scenario_set false) ∧ NoDup ["C"; "A"; "B"; "D"]
  ∧ ∃ ilist,
      query_intersections (scenario_set false) ["C"; "A"; "B"; "D"] ["A"]
      = inr ilist
      ∧ length ilist = 6%nat.
Proof.
  assert (NoDup ["C"; "A"; "B"; "D"]) as Hnd by compute_done.
  split; [apply constructed_scenario|]. split; [exact Hnd|].
  destruct (intersections_length (scenario_set false) ["C"; "A"; "B"; "D"]
              ["A"] (constructed_scenario false) Hnd) as (ilist & Hq & Hlen).
  exists ilist. split; [exact Hq|]. simpl in Hlen. lia.
Defined.

(** ** Enrichment, continued *)

Lemma for_each_inl_step {A S : Type} (xs : list A) (body : S → A → result S)
    (s : S) (e : exn) :
  for_each xs body s = inl e → ∃ x s1, x ∈ xs ∧ body s1 x = inl e.
Proof.
  revert s; induction xs as [|y xs IH]; intros s Hrun; [discriminate|].
  cbn [for_each] in Hrun. destruct (body s y) as [e'|s'] eqn:Hb.
  - injection Hrun as ->. exists y, s. split; [left|done].
  - destruct (IH s' Hrun) as (x & s1 & Hx & Hb'). exists x, s1.
    split; [by right|done].
Qed.

(** The per-term loop appends, for each retained term in turn, its selected
    record. *)
Lemma enrichment_results_exact (fisher_exact : fisher_exact_t)
    (self : AssociationSet) (ec : EnrichmentCounts) (threshold : Q)
    (labels : bool) (dir : direction) (results : list EnrichmentRecord) :
  enrichment_results fisher_exact self ec threshold labels dir = inr results →
  results
  = ec_hypotheses ec
    ≫= selected_record fisher_exact self ec threshold labels dir.
Proof.
  unfold enrichment_results. intros Hrun.
  refine (for_each_ind
            (λ done res,
               res = done ≫= selected_record fisher_exact self ec threshold
                                labels dir)
            _ _ _ _ _ _ Hrun); [done|].
  intros done cls res res' _ Hres Hbody. rewrite bind_app, <- Hres.
  set (F := selected_record fisher_exact self ec threshold labels dir).
  assert ([cls] ≫= F = F cls) as -> by (rewrite bind_cons; apply app_nil_r).
  unfold F, selected_record.
  inv_bind Hbody. rewrite Hx. destruct x as [[[a b] c] d]. cbv zeta.
  unfold mret, result_ret in Hbody.
  destruct (Qlt_le_dec _ threshold) as [Hlt|Hge].
  - unfold label_entry. destruct labels.
    + inv_bind Hbody. unfold ontology_label, mret, result_ret in Hx0.
      destruct (ontology self) as [o|]; [|discriminate].
      injection Hx0 as <-. by injection Hbody as <-.
    + by injection Hbody as <-.
  - injection Hbody as <-. by rewrite app_nil_r.
Qed.

Lemma elem_of_selected_record (fisher_exact : fisher_exact_t)
    (self : AssociationSet) (ec : EnrichmentCounts) (threshold : Q)
    (labels : bool) (dir : direction) (cls : string) (r : EnrichmentRecord) :
  r ∈ selected_record fisher_exact self ec threshold labels dir cls →
  er_c r = cls ∧ er_n r = label_entry self labels cls.
Proof.
  unfold selected_record.
  destruct (contingency ec cls) as [e|[[[a b] c] d]];
    [by intros ?%elem_of_nil|].
  cbv zeta. destruct (Qlt_le_dec _ threshold); [|by intros ?%elem_of_nil].
  intros ->%list_elem_of_singleton. done.
Qed.

Lemma enrichment_test_inv (fisher_exact : fisher_exact_t)
    (self : AssociationSet) (subjects_arg : list string)
    (background : option (list string)) (threshold : Q) (labels : bool)
    (dir : direction) (results : list EnrichmentRecord) :
  enrichment_test fisher_exact self subjects_arg background threshold labels
    dir = inr results →
  let ec := counts_spec self subjects_arg background in
  enrichment_counts self subjects_arg background = inr ec
  ∧ enrichment_results fisher_exact self ec threshold labels dir
    = inr (ec_hypotheses ec
           ≫= selected_record fisher_exact self ec threshold labels dir)
  ∧ results
    = sorted_by_p (ec_hypotheses ec
                   ≫= selected_record fisher_exact self ec threshold labels
                        dir).
Proof.
  intros Hrun. cbv zeta. unfold enrichment_test in Hrun.
  inv_bind Hrun. inv_bind Hrun. injection Hrun as <-.
  pose proof (enrichment_counts_inv _ _ _ _ Hx) as ->.
  pose proof (enrichment_results_exact _ _ _ _ _ _ _ Hx0) as Heq.
  split; [done|]. split; [by rewrite <- Heq|by rewrite <- Heq].
Qed.

(** X14: the records [enrichment_test] returns are in ascending order of
    corrected p-value, and each corrected p-value is below the threshold and
    at most 1. *)
Theorem enrichment_test_sorted (fisher_exact : fisher_exact_t)
    (self : AssociationSet) (subjects_arg : list string)
    (background : option (list string)) (threshold : Q) (labels : bool)
    (dir : direction) (results : list EnrichmentRecord) :
  enrichment_test fisher_exact self subjects_arg background threshold labels
    dir = inr results →
  StronglySorted (λ r1 r2, (er_p r1 <= er_p r2)%Q) results
  ∧ ∀ r, r ∈ results → (er_p r < threshold)%Q ∧ (er_p r <= 1)%Q.
Proof.
  intros Hrun.
  destruct (enrichment_test_inv _ _ _ _ _ _ _ _ Hrun) as (_ & Hres & ->).
  split; [apply sorted_by_p_sorted|].
  intros r Hr. rewrite sorted_by_p_perm in Hr.
  destruct (enrichment_results_inv _ _ _ _ _ _ _ Hres r Hr)
    as (_ & _ & Hp & Hlt).
  split; [done|]. rewrite Hp. unfold corrected.
  by destruct (Qlt_le_dec 1 _); [|].
Qed.

Lemma enrichment_test_sorted_witness :
  ∃ results,
    enrichment_test fisher_exact_reference (scenario_set false)
      ["g1"; "g2"] None 2 false greater = inr results
    ∧ StronglySorted (λ r1 r2, (er_p r1 <= er_p r2)%Q) results
    ∧ length results = 3%nat.
Proof.
  assert (∃ results,
            enrichment_test fisher_exact_reference (scenario_set false)
              ["g1"; "g2"] None 2 false greater = inr results
            ∧ length results = 3%nat) as (results & Hrun & Hlen).
  { eexists. split; [vm_compute; reflexivity|reflexivity]. }
  exists results. split; [exact Hrun|]. split; [|exact Hlen].
  apply (enrichment_test_sorted _ _ _ _ _ _ _ _ Hrun).
Defined.

(** X15: [enrichment_test] returns one record for each retained term whose
    corrected p-value is below the threshold, and no other record: the terms
    of the returned records are pairwise distinct, each is a retained term,
    and a retained term below the threshold is among them. *)
Theorem enrichment_test_complete (fisher_exact : fisher_exact_t)
    (self : AssociationSet) (subjects_arg : list string)
    (background : option (list string)) (threshold : Q) (labels : bool)
    (dir : direction) (results : list EnrichmentRecord) :
  enrichment_test fisher_exact self subjects_arg background threshold labels
    dir = inr results →
  ∃ ec, enrichment_counts self subjects_arg background = inr ec
    ∧ NoDup (er_c <$> results)
    ∧ (∀ r, r ∈ results → er_c r ∈ ec_hypotheses ec)
    ∧ ∀ cls a b c d,
        cls ∈ ec_hypotheses ec →
        contingency ec cls = inr (a, b, c, d) →
        (corrected (fisher_exact a b c d dir) (ec_num_hypotheses ec)
         < threshold)%Q →
        ∃ r, r ∈ results ∧ er_c r = cls
             ∧ er_p_uncorrected r = fisher_exact a b c d dir
             ∧ er_p r = corrected (fisher_exact a b c d dir)
                          (ec_num_hypotheses ec).
Proof.
  intros Hrun.
  destruct (enrichment_test_inv _ _ _ _ _ _ _ _ Hrun) as (Hec & Hres & ->).
  set (ec := counts_spec self subjects_arg background) in *.
  exists ec. split; [done|]. split; [|split].
  - rewrite sorted_by_p_perm. apply NoDup_fmap_2_strong.
    + intros r r' Hr Hr' Heq.
      apply list_elem_of_bind in Hr as (cls & Hr & _).
      apply list_elem_of_bind in Hr' as (cls' & Hr' & _).
      pose proof (elem_of_selected_record _ _ _ _ _ _ _ _ Hr) as [Hc _].
      pose proof (elem_of_selected_record _ _ _ _ _ _ _ _ Hr') as [Hc' _].
      assert (cls = cls') as <- by congruence.
      unfold selected_record in Hr, Hr'.
      destruct (contingency ec cls) as [e|[[[a b] c] d]];
        [by apply elem_of_nil in Hr|].
      cbv zeta in Hr, Hr'. destruct (Qlt_le_dec _ threshold);
        [|by apply elem_of_nil in Hr].
      apply list_elem_of_singleton in Hr, Hr'. congruence.
    + apply NoDup_bind.
      * intros cls cls' r _ _ Hr Hr'.
        apply elem_of_selected_record in Hr as [<- _].
        by apply elem_of_selected_record in Hr' as [<- _].
      * intros cls _. unfold selected_record.
        destruct (contingency ec cls) as [e|[[[a b] c] d]];
          [apply NoDup_nil_2|].
        cbv zeta. destruct (Qlt_le_dec _ threshold);
          [apply NoDup_singleton|apply NoDup_nil_2].
      * unfold ec, counts_spec. cbn [ec_hypotheses].
        apply NoDup_filter, NoDup_elements.
  - intros r Hr. rewrite sorted_by_p_perm in Hr.
    by destruct (enrichment_results_inv _ _ _ _ _ _ _ Hres r Hr) as [? _].
  - intros cls a b c d Hcls Hcont Hlt. eexists. split.
    + rewrite sorted_by_p_perm. apply list_elem_of_bind. exists cls.
      split; [|done]. unfold selected_record. rewrite Hcont. cbv zeta.
      destruct (Qlt_le_dec _ threshold) as [_|Hge].
      * left.
      * exfalso. by apply (Qlt_not_le _ _ Hlt).
    + done.
Qed.

Lemma enrichment_test_complete_witness :
  ∃ results,
    enrichment_test fisher_exact_reference (scenario_set false)
      ["g1"; "g2"] None 2 false greater = inr results
    ∧ NoDup (er_c <$> results).
Proof.
  assert (∃ results,
            enrichment_test fisher_exact_reference (scenario_set false)
              ["g1"; "g2"] None 2 false greater = inr results)
    as (results & Hrun) by (eexists; vm_compute; reflexivity).
  exists results. split; [exact Hrun|].
  by destruct (enrichment_test_complete _ _ _ _ _ _ _ _ Hrun)
    as (ec & _ & Hnd & _).
Defined.

(** X16: the records carry a label entry exactly when labels are asked for,
    and then it is the label the ontology gives for the record's term. *)
Theorem enrichment_test_labels (fisher_exact : fisher_exact_t)
    (self : AssociationSet) (subjects_arg : list string)
    (background : option (list string)) (threshold : Q) (labels : bool)
    (dir : direction) (results : list EnrichmentRecord) :
  enrichment_test fisher_exact self subjects_arg background threshold labels
    dir = inr results →
  ∀ r, r ∈ results →
    if labels then
      ∃ o, ontology self = Some o ∧ er_n r = Some (label o (er_c r))
    else er_n r = None.
Proof.
  intros Hrun r Hr.
  destruct (enrichment_test_inv _ _ _ _ _ _ _ _ Hrun) as (_ & Hres & ->).
  rewrite sorted_by_p_perm in Hr.
  apply list_elem_of_bind in Hr as (cls & Hr & Hcls).
  pose proof (elem_of_selected_record _ _ _ _ _ _ _ _ Hr) as [<- Hn].
  destruct labels; [|done].
  unfold enrichment_results in Hres.
  destruct (for_each_inr_steps _ _ _ _ Hres (er_c r) Hcls)
    as (s1 & s2 & Hbody).
  unfold selected_record in Hr.
  destruct (contingency _ (er_c r)) as [e|[[[a b] c] d]];
    [by apply elem_of_nil in Hr|].
  cbn [mbind result_bind] in Hbody. cbv zeta in Hr, Hbody.
  destruct (Qlt_le_dec _ threshold); [|by apply elem_of_nil in Hr].
  inv_bind Hbody. unfold ontology_label in Hx.
  destruct (ontology self) as [o|] eqn:Ho; [|discriminate].
  exists o. split; [done|]. rewrite Hn. unfold label_entry. by rewrite Ho.
Qed.

Lemma enrichment_test_labels_witness :
  ∃ results,
    enrichment_test fisher_exact_reference (scenario_set false)
      ["g1"; "g2"] None 2 true greater = inr results
    ∧ length results = 3%nat
    ∧ ∀ r, r ∈ results → er_n r = Some None.
Proof.
  assert (∃ results,
            enrichment_test fisher_exact_reference (scenario_set false)
              ["g1"; "g2"] None 2 true greater = inr results
            ∧ length results = 3%nat) as (results & Hrun & Hlen).
  { eexists. split; [vm_compute; reflexivity|reflexivity]. }
  exists results. split; [exact Hrun|]. split; [exact Hlen|].
  intros r Hr.
  destruct (enrichment_test_labels _ _ _ _ _ _ _ _ Hrun r Hr)
    as (o & Ho & ->).
  injection Ho as <-. reflexivity.
Defined.

(** X17: for every retained term, the table's first column sums to the
    background count, which is at least 2, its first row to the sample size
    and the four cells to the background size; the term occurs in at least
    one subject of the sample ([a >= 1]). *)
Theorem retained_table_margins (self : AssociationSet)
    (subjects_arg : list string) (background : option (list string))
    (ec : EnrichmentCounts) (cls : string) :
  enrichment_counts self subjects_arg background = inr ec →
  cls ∈ ec_hypotheses ec →
  ∃ a b c d n,
    contingency ec cls = inr (a, b, c, d)
    ∧ ec_bg_count ec !! cls = Some n
    ∧ 1 ≤ a ∧ 2 ≤ n
    ∧ a + c = n
    ∧ a + b = ec_sample_size ec
    ∧ a + b + c + d = ec_bg_size ec
    ∧ ec_sample_size ec ≤ ec_bg_size ec.
Proof.
  intros Hec Hcls. apply enrichment_counts_inv in Hec. subst ec.
  apply elem_of_kept in Hcls as [Hcls Hgt].
  pose proof (contingency_counts_spec self subjects_arg background cls Hcls)
    as Hcont. cbv zeta in Hcont.
  eexists _, _, _, _, _. split; [exact Hcont|].
  unfold counts_spec. cbn [ec_bg_count ec_sample_size ec_bg_size].
  rewrite lookup_count_map, decide_True by done. split; [done|].
  assert (1 ≤ len (members_with self (list_to_set subjects_arg) cls)) as Ha.
  { apply elem_of_hypotheses_of in Hcls as (s & Hs & Hc).
    assert (0 < len (members_with self (list_to_set subjects_arg) cls));
      [|lia].
    apply len_pos. intros Hempty.
    assert (s ∈ members_with self (list_to_set subjects_arg) cls) as Hin
      by (unfold members_with; by apply elem_of_filter).
    rewrite Hempty in Hin. by apply elem_of_empty in Hin. }
  assert (len (list_to_set subjects_arg : gset string)
          ≤ len (effective_background self (list_to_set subjects_arg)
                   background)) as Hsize.
  { unfold len. apply inj_le, subseteq_size, sample_subseteq_background. }
  repeat split; try done; lia.
Qed.

Lemma retained_table_margins_witness :
  ∃ ec, enrichment_counts (scenario_set false) ["g1"] None = inr ec
    ∧ "B" ∈ ec_hypotheses ec
    ∧ contingency ec "B" = inr (1, 0, 2, 0).
Proof.
  assert (∃ ec, enrichment_counts (scenario_set false) ["g1"] None = inr ec
                ∧ "B" ∈ ec_hypotheses ec) as (ec & Hec & HB).
  { eexists. split; [apply enrichment_counts_refines;
                     by apply lookups_ok_lenient|compute_done]. }
  exists ec. split; [exact Hec|]. split; [exact HB|].
  destruct (retained_table_margins _ _ _ _ _ Hec HB)
    as (a & b & c & d & n & Hcont & _).
  rewrite Hcont. apply enrichment_counts_inv in Hec. subst ec.
  revert Hcont. vm_compute. by intros [= <- <- <- <-].
Defined.

Lemma for_each_incr_keeps (hypotheses : gset string) (la : list string)
    (count : gmap string Z) :
  NoDup la → (∀ a, a ∈ la → a ∈ hypotheses) →
  (∀ c, c ∈ hypotheses → is_Some (count !! c)) →
  ∃ count', for_each la incr count = inr count'
            ∧ ∀ c, c ∈ hypotheses → is_Some (count' !! c).
Proof.
  intros Hnd Hla Hdom.
  destruct (for_each_incr la count Hnd) as (count' & Hrun & Hc').
  { intros a Ha. by apply Hdom, Hla. }
  exists count'. split; [done|]. intros c Hc. rewrite Hc'.
  destruct (Hdom c Hc) as [n ->]. by destruct (decide (c ∈ la)).
Qed.

(** In strict mode the counting of [enrichment_test] raises as soon as one
    member of the effective background has no stored closure. *)
Lemma enrichment_counts_strict (self : AssociationSet)
    (subjects_arg : list string) (background : option (list string))
    (s : string) :
  strict self = true →
  s ∈ effective_background self (list_to_set subjects_arg) background →
  subject_to_inferred_map self !! s = None →
  enrichment_counts self subjects_arg background = inl TypeError.
Proof.
  intros Hstrict Hs Hnone. unfold enrichment_counts.
  destruct (all_hypotheses self (list_to_set subjects_arg))
    as [e|hyps] eqn:Hall; cbn [mbind result_bind].
  { unfold all_hypotheses in Hall.
    apply for_each_inl_step in Hall as (x & s1 & _ & Hb).
    destruct (inferred_types self x) as [e'|ancs] eqn:Hx; [|discriminate].
    cbn [mbind result_bind] in Hb. injection Hb as <-.
    by apply inferred_types_inl in Hx as [-> _]. }
  rewrite zero_counts.
  rewrite (for_each_raises
             (λ count, ∀ c, c ∈ hyps → is_Some (count !! c)) TypeError
             (elements (effective_background self (list_to_set subjects_arg)
                          background))
             (λ bg_count x,
                ancs ← inferred_types self x;
                for_each (elements (ancs ∩ hyps)) incr bg_count)).
  - done.
  - intros c Hc. rewrite foldl_insert_lookup, decide_True; [by eexists|].
    by apply elem_of_elements.
  - intros count x _ Hcount.
    destruct (inferred_types self x) as [e'|ancs] eqn:Hx.
    + right. by apply inferred_types_inl in Hx as [-> _].
    + left. cbn [mbind result_bind].
      apply for_each_incr_keeps; [apply NoDup_elements| |done].
      intros a Ha. apply elem_of_elements in Ha. set_solver.
  - exists s. split; [by apply elem_of_elements|]. intros count _.
    by rewrite (inferred_types_strict_absent self s Hstrict Hnone).
Qed.

(** X18: in strict mode [enrichment_test] raises [TypeError] as soon as a
    subject of the sample or of the background has no stored closure; when
    every such subject has one (and the ontology is there if labels are
    asked for) it returns, in strict mode too. *)
Theorem enrichment_test_strict (fisher_exact : fisher_exact_t)
    (self : AssociationSet) (subjects_arg : list string)
    (background : option (list string)) (threshold : Q) (labels : bool)
    (dir : direction) :
  let bg := effective_background self (list_to_set subjects_arg) background in
  ((∃ s, s ∈ bg ∧ strict self = true
         ∧ subject_to_inferred_map self !! s = None) →
   enrichment_test fisher_exact self subjects_arg background threshold labels
     dir = inl TypeError)
  ∧ ((∀ s, s ∈ bg → is_Some (subject_to_inferred_map self !! s)) →
     (labels = true → is_Some (ontology self)) →
     ∃ results,
       enrichment_test fisher_exact self subjects_arg background threshold
         labels dir = inr results).
Proof.
  intros bg. split.
  - intros (s & Hs & Hstrict & Hnone). unfold enrichment_test.
    by rewrite (enrichment_counts_strict self subjects_arg background s).
  - intros Hall Hlab. unfold enrichment_test.
    assert (lookups_ok self bg) as Hok
      by (intros s Hs; by apply inferred_types_present, Hall).
    rewrite (enrichment_counts_refines _ _ _ Hok). cbn [mbind result_bind].
    destruct (enrichment_results_total fisher_exact self
                (counts_spec self subjects_arg background)
                threshold labels dir) as [results ->]; [|done|by eexists].
    intros cls Hcls.
    destruct (retained_cells self subjects_arg background _ cls
                (enrichment_counts_refines _ _ _ Hok) Hcls)
      as (a & b & c & d & -> & _).
    by eexists.
Qed.

Lemma enrichment_test_strict_witness :
  enrichment_test fisher_exact_reference (scenario_set true) ["g1"]
    (Some ["g2"; "g9"]) 2 false greater = inl TypeError
  ∧ ∃ results,
      enrichment_test fisher_exact_reference (scenario_set true) ["g1"]
        (Some ["g2"; "g3"]) 2 false greater = inr results.
Proof.
  split.
  - apply (proj1 (enrichment_test_strict fisher_exact_reference
                    (scenario_set true) ["g1"] (Some ["g2"; "g9"]) 2 false
                    greater)).
    exists "g9". split; [compute_done|]. split; [done|]. by vm_compute.
  - apply (proj2 (enrichment_test_strict fisher_exact_reference
                    (scenario_set true) ["g1"] (Some ["g2"; "g3"]) 2 false
                    greater)); [|done].
    intros s Hs.
    assert (s ∈ ["g1"; "g2"; "g3"]) as Hin by (revert Hs; set_solver).
    repeat (apply elem_of_cons in Hin as [->|Hin]; [compute_done|]).
    by apply elem_of_nil in Hin.
Defined.

(** X19: a sample whose subjects all have an empty closure (in lenient mode,
    this includes every subject that is not in the index) gives no
    hypothesis, and [enrichment_test] returns no record, whatever the
    background is. *)
Theorem enrichment_test_empty_closures (fisher_exact : fisher_exact_t)
    (self : AssociationSet) (subjects_arg : list string)
    (background : option (list string)) (threshold : Q) (labels : bool)
    (dir : direction) :
  strict self = false →
  (∀ s, s ∈ subjects_arg → closure_of self s = ∅) →
  enrichment_test fisher_exact self subjects_arg background threshold labels
    dir = inr [].
Proof.
  intros Hstrict Hempty. unfold enrichment_test.
  rewrite enrichment_counts_refines by (by apply lookups_ok_lenient).
  cbn [mbind result_bind].
  assert (hypotheses_of self (list_to_set subjects_arg) = ∅) as Hhyps.
  { apply set_eq. intros c. rewrite elem_of_hypotheses_of. split.
    - intros (s & Hs & Hc). apply elem_of_list_to_set in Hs.
      by rewrite (Hempty s Hs) in Hc.
    - intros Hc. by apply elem_of_empty in Hc. }
  assert (ec_hypotheses (counts_spec self subjects_arg background) = [])
    as Hkept.
  { unfold counts_spec. cbn [ec_hypotheses].
    by rewrite Hhyps, elements_empty. }
  unfold enrichment_results. by rewrite Hkept.
Qed.

Lemma enrichment_test_empty_closures_witness :
  strict (scenario_set false) = false
  ∧ (∀ s, s ∈ ["g8"; "g9"] → closure_of (scenario_set false) s = ∅)
  ∧ enrichment_test fisher_exact_reference (scenario_set false) ["g8"; "g9"]
      None 2 true less = inr [].
Proof.
  assert (∀ s, s ∈ ["g8"; "g9"] → closure_of (scenario_set false) s = ∅)
    as Hempty.
  { intros s Hin.
    repeat (apply elem_of_cons in Hin as [->|Hin]; [by vm_compute|]).
    by apply elem_of_nil in Hin. }
  split; [done|]. split; [exact Hempty|].
  by apply enrichment_test_empty_closures.
Defined.

Lemma corrected_nonneg (p : Q) (n : Z) :
  (0 <= p)%Q → 0 ≤ n → (0 <= corrected p n)%Q.
Proof.
  intros Hp Hn. unfold corrected.
  destruct (Qlt_le_dec 1 (p * inject_Z n)); [done|].
  apply Qmult_le_0_compat; [done|]. by apply (inject_Z_le 0 n).
Qed.

(** X20: with a threshold that is zero or negative [enrichment_test]
    returns no record (it does not reject the threshold), the exact test
    giving non-negative p-values on tables of non-negative cells. *)
Theorem enrichment_test_threshold_nonpos (fisher_exact : fisher_exact_t)
    (self : AssociationSet) (subjects_arg : list string)
    (background : option (list string)) (threshold : Q) (labels : bool)
    (dir : direction) (results : list EnrichmentRecord) :
  (∀ a b c d dir, 0 ≤ a → 0 ≤ b → 0 ≤ c → 0 ≤ d →
                  (0 <= fisher_exact a b c d dir)%Q) →
  (threshold <= 0)%Q →
  enrichment_test fisher_exact self subjects_arg background threshold labels
    dir = inr results →
  results = [].
Proof.
  intros Hfisher Hthr Hrun.
  destruct (enrichment_test_inv _ _ _ _ _ _ _ _ Hrun) as (Hec & Hres & ->).
  destruct (sorted_by_p _) as [|r l] eqn:Hsorted; [done|]. exfalso.
  assert (r ∈ sorted_by_p
                (ec_hypotheses (counts_spec self subjects_arg background)
                 ≫= selected_record fisher_exact self
                      (counts_spec self subjects_arg background) threshold
                      labels dir)) as Hr by (rewrite Hsorted; left).
  rewrite sorted_by_p_perm in Hr.
  destruct (enrichment_results_inv _ _ _ _ _ _ _ Hres r Hr)
    as (Hc & (a & b & c & d & Hcont & Hpu) & Hp & Hlt).
  destruct (retained_cells _ _ _ _ _ Hec Hc)
    as (a' & b' & c' & d' & Hcont' & Ha & Hb & Hc' & Hd).
  rewrite Hcont in Hcont'. injection Hcont' as <- <- <- <-.
  assert (0 <= er_p r)%Q as Hnonneg.
  { rewrite Hp, Hpu. apply corrected_nonneg; [by apply Hfisher|].
    unfold counts_spec. cbn [ec_num_hypotheses]. lia. }
  apply (Qlt_not_le _ _ Hlt). by apply (Qle_trans _ 0).
Qed.

Lemma enrichment_test_threshold_nonpos_witness :
  (∀ a b c d dir, 0 ≤ a → 0 ≤ b → 0 ≤ c → 0 ≤ d →
                  (0 <= fisher_exact_reference a b c d dir)%Q)
  ∧ (0 <= 0)%Q
  ∧ enrichment_test fisher_exact_reference (scenario_set false)
      ["g1"; "g2"] None 0 false greater = inr [].
Proof.
  assert (∀ a b c d dir, 0 ≤ a → 0 ≤ b → 0 ≤ c → 0 ≤ d →
            (0 <= fisher_exact_reference a b c d dir)%Q) as Hf
    by (intros; apply fisher_exact_reference_range).
  assert (0 <= 0)%Q as H0 by done.
  split; [exact Hf|]. split; [exact H0|].
  assert (∃ results,
            enrichment_test fisher_exact_reference (scenario_set false)
              ["g1"; "g2"] None 0 false greater = inr results)
    as (results & Hrun) by (eexists; vm_compute; reflexivity).
  rewrite Hrun. f_equal.
  apply (enrichment_test_threshold_nonpos _ _ _ _ _ _ _ _ Hf H0 Hrun).
Defined.
